(** * Caelum release script: the gitignore-aware tree copier

    A shallow embedding of [copyNotGitignoreTree] from
    [scripts/create_release.py] together with the file-system calls it
    makes ([os.path.isdir], [os.listdir], [os.makedirs], [os.path.dirname],
    [shutil.copy2]), and of the steps of its callers that work on the
    file system or on text: the directory steps of [main] and
    [createModpackZip], the loop over the override entries, and the
    blocks of [createServerZip] that write [server.txt] and
    [server.properties].

    Conventions of the model.
    - A path is the list of its components, resolved from one root (the
      working directory of the script); [a + os.path.sep + b] is list
      append.  [relative] names at least one component and is taken
      separator-normalised (no empty, [.] or [..] component).
    - The file system is one tree shared by source and destination, so
      that a destination inside the source (the script copies from [.]
      into [build/...]) is expressible.  A directory keeps its entries in
      the order [os.listdir] reports them.  There are no symbolic links.
    - The script runs as an unprivileged user who owns what it meets.  Of
      the permissions the model keeps the two the copier can run into by
      itself: a regular file without the owner's write bit ([st_mode],
      which [shutil.copy2] carries over to the copy) cannot be opened for
      writing, and a directory without read permission ([Locked]) cannot
      be listed, though it can be searched and written.  Write and search
      permission on directories are taken as granted.
    - An exception of Python is a value of [error]; the state reached when
      the exception is raised is kept, as the side effects done so far
      persist on disk.
    - The ignore matcher is an opaque callable: a total function on
      relative paths; each call is recorded in the world, in order.
    - Python recursion is bounded by a fuel argument; running out of it is
      the separate outcome [OutOfFuel]. *)

From Stdlib Require Import List String ZArith Lia Bool PeanoNat.
From Stdlib Require Import Ascii DecimalString.
Import ListNotations.
Open Scope string_scope.
Open Scope list_scope.

Set Warnings "-register-all".

(** ** Paths *)

Definition path := list string.

(** [os.path.dirname] and [os.path.basename] on component lists. *)
Definition dirname (p : path) : path := removelast p.
Definition basename (p : path) : string := last p "".

Fixpoint is_prefix (p q : path) : bool :=
  match p, q with
  | [], _ => true
  | _ :: _, [] => false
  | x :: p', y :: q' => String.eqb x y && is_prefix p' q'
  end.

(** Two paths are comparable when one is an ancestor of (or equal to) the
    other. *)
Definition comparable (p q : path) : bool := is_prefix p q || is_prefix q p.

Fixpoint path_eqb (p q : path) : bool :=
  match p, q with
  | [], [] => true
  | x :: p', y :: q' => String.eqb x y && path_eqb p' q'
  | _, _ => false
  end.

(** ** File-system tree *)

(** What [shutil.copystat] carries over. *)
Record stat_result : Type := { st_mode : Z; st_mtime : Z }.

(** [Locked] is a directory the process may search and write but not
    list: it lacks read permission. *)
Inductive node : Type :=
| File (data : list Byte.byte) (meta : stat_result)
| Dir (entries : list (string * node))
| Locked (entries : list (string * node)).

Inductive error : Type :=
| FileNotFoundError
| FileExistsError
| NotADirectoryError
| IsADirectoryError
| SameFileError
| PermissionError.

(** [S_IWUSR], the owner's write bit of [st_mode]. *)
Definition writable (meta : stat_result) : bool := Z.testbit (st_mode meta) 7.

Fixpoint find_entry (x : string) (es : list (string * node)) : option node :=
  match es with
  | [] => None
  | (k, c) :: r => if String.eqb k x then Some c else find_entry x r
  end.

(** Replace the entry named [x], or add it after the existing ones. *)
Fixpoint set_entry (x : string) (v : node) (es : list (string * node))
  : list (string * node) :=
  match es with
  | [] => [(x, v)]
  | (k, c) :: r =>
      if String.eqb k x then (k, v) :: r else (k, c) :: set_entry x v r
  end.

(** Path resolution as the kernel does it: a missing component is ENOENT,
    a component below a regular file is ENOTDIR. *)
Fixpoint resolve (n : node) (p : path) : error + node :=
  match p with
  | [] => inr n
  | x :: q =>
      match n with
      | File _ _ => inl NotADirectoryError
      | Dir es | Locked es =>
          match find_entry x es with
          | None => inl FileNotFoundError
          | Some c => resolve c q
          end
      end
  end.

(** Put [v] at [p]; the parent of [p] must be an existing directory. *)
Fixpoint store (n : node) (p : path) (v : node) : option node :=
  match p with
  | [] => Some v
  | x :: q =>
      match n with
      | File _ _ => None
      | Dir es =>
          match q with
          | [] => Some (Dir (set_entry x v es))
          | _ :: _ =>
              match find_entry x es with
              | None => None
              | Some c =>
                  match store c q v with
                  | None => None
                  | Some c' => Some (Dir (set_entry x c' es))
                  end
              end
          end
      | Locked es =>
          match q with
          | [] => Some (Locked (set_entry x v es))
          | _ :: _ =>
              match find_entry x es with
              | None => None
              | Some c =>
                  match store c q v with
                  | None => None
                  | Some c' => Some (Locked (set_entry x c' es))
                  end
              end
          end
      end
  end.

(** Drop the entries named [x]. *)
Fixpoint remove_entry (x : string) (es : list (string * node))
  : list (string * node) :=
  match es with
  | [] => []
  | (k, c) :: r =>
      if String.eqb k x then remove_entry x r else (k, c) :: remove_entry x r
  end.

Definition is_dir (n : node) (p : path) : bool :=
  match resolve n p with
  | inr (Dir _) | inr (Locked _) => true
  | _ => false
  end.

(** A directory that can be listed. *)
Definition listable (n : node) (p : path) : bool :=
  match resolve n p with
  | inr (Dir _) => true
  | _ => false
  end.

Definition path_exists (n : node) (p : path) : bool :=
  match resolve n p with
  | inr _ => true
  | inl _ => false
  end.

(** Height of a tree: the number of nested calls a walk of it needs. *)
Fixpoint height (n : node) : nat :=
  match n with
  | File _ _ => 0
  | Dir es | Locked es =>
      S ((fix entries_height (l : list (string * node)) : nat :=
            match l with
            | [] => 0
            | (_, c) :: r => Nat.max (height c) (entries_height r)
            end) es)
  end.

(** What [shutil.rmtree] leaves of a tree: nothing ([None]) when all of
    it could be removed; otherwise the remains, the entries being taken
    in listing order up to the first directory that cannot be listed. *)
Fixpoint remains (n : node) : option node :=
  match n with
  | File _ _ => None
  | Locked es => Some (Locked es)
  | Dir es =>
      match (fix entries_remains (l : list (string * node))
               : list (string * node) :=
               match l with
               | [] => []
               | (k, c) :: r =>
                   match remains c with
                   | None => entries_remains r
                   | Some c' => (k, c') :: r
                   end
               end) es with
      | [] => None
      | l => Some (Dir l)
      end
  end.

(** ** Worlds, outcomes and the monad of the script *)

Record world : Type := { fs : node; queried : list path }.

Inductive result (A : Type) : Type :=
| Returned (a : A)
| Raised (e : error)
| OutOfFuel.
Arguments Returned {A} a.
Arguments Raised {A} e.
Arguments OutOfFuel {A}.

Definition M (A : Type) : Type := world -> world * result A.

Definition ret {A} (a : A) : M A := fun w => (w, Returned a).
Definition out_of_fuel {A} : M A := fun w => (w, OutOfFuel).

Definition bind {A B} (m : M A) (k : A -> M B) : M B :=
  fun w =>
    match m w with
    | (w', Returned a) => k a w'
    | (w', Raised e) => (w', Raised e)
    | (w', OutOfFuel) => (w', OutOfFuel)
    end.

Notation "x <- m ;; k" := (bind m (fun x => k))
  (at level 61, m at next level, right associativity).
Notation "m ;;; k" := (bind m (fun _ => k))
  (at level 61, right associativity).

(** [for x in xs: body(x)] *)
Fixpoint for_each {A} (xs : list A) (body : A -> M unit) : M unit :=
  match xs with
  | [] => ret tt
  | x :: r => body x ;;; for_each r body
  end.

(** [try: m except FileExistsError: pass] *)
Definition except_FileExistsError (m : M unit) : M unit :=
  fun w =>
    match m w with
    | (w', Raised FileExistsError) => (w', Returned tt)
    | r => r
    end.

Definition set_fs (w : world) (n : node) : world :=
  {| fs := n; queried := queried w |}.

(** ** The library calls *)

Module os.

Definition isdir (p : path) : M bool :=
  fun w => (w, Returned (is_dir (fs w) p)).

Definition exists_ (p : path) : M bool :=
  fun w => (w, Returned (path_exists (fs w) p)).

Definition listdir (p : path) : M (list string) :=
  fun w =>
    match resolve (fs w) p with
    | inr (Dir es) => (w, Returned (map fst es))
    | inr (Locked _) => (w, Raised PermissionError)
    | inr (File _ _) => (w, Raised NotADirectoryError)
    | inl e => (w, Raised e)
    end.

Definition mkdir (p : path) : M unit :=
  fun w =>
    match resolve (fs w) p with
    | inr _ => (w, Raised FileExistsError)
    | inl _ =>
        match resolve (fs w) (dirname p) with
        | inl e => (w, Raised e)
        | inr (File _ _) => (w, Raised NotADirectoryError)
        | inr (Dir _) | inr (Locked _) =>
            match store (fs w) p (Dir []) with
            | Some n' => (set_fs w n', Returned tt)
            | None => (w, Raised FileNotFoundError)
            end
        end
    end.

(** [os.makedirs(name)] with [exist_ok=False]: make the missing
    ancestors first, then [name] itself.  The recursion of the library
    is on the head of the path; [k] bounds it by the length of the
    path. *)
Fixpoint makedirs_from (k : nat) (name : path) : M unit :=
  match k with
  | 0 => mkdir name
  | S k' =>
      let head := dirname name in
      (match head with
       | [] => ret tt
       | _ :: _ =>
           e <- exists_ head ;;
           if e then ret tt
           else except_FileExistsError (makedirs_from k' head)
       end) ;;;
      mkdir name
  end.

Definition makedirs (name : path) : M unit :=
  makedirs_from (List.length name) name.

End os.

Module shutil.

(** Where [copy2] writes: a directory as [dst] receives the file under
    the base name of [src]. *)
Definition copy2_target (n : node) (src dst : path) : path :=
  if is_dir n dst then dst ++ [basename src] else dst.

(** Whether [open(dst, 'wb')] is refused: [dst] is a regular file that
    lacks the owner's write bit. *)
Definition read_only (n : node) (dst : path) : bool :=
  match resolve n dst with
  | inr (File _ old) => negb (writable old)
  | _ => false
  end.

(** [shutil.copy2(src, dst)]: [copyfile] refuses to copy a file onto
    itself, opens [src] for reading and [dst] for writing, and
    [copystat] then transfers the metadata, the mode included. *)
Definition copy2 (src dst : path) : M unit :=
  fun w =>
    let dst := copy2_target (fs w) src dst in
    if path_eqb src dst && path_exists (fs w) src
    then (w, Raised SameFileError)
    else
      match resolve (fs w) src with
      | inl e => (w, Raised e)
      | inr (Dir _) | inr (Locked _) => (w, Raised IsADirectoryError)
      | inr (File data meta) =>
          match resolve (fs w) dst with
          | inr (Dir _) | inr (Locked _) => (w, Raised IsADirectoryError)
          | inl NotADirectoryError => (w, Raised NotADirectoryError)
          | _ =>
              if read_only (fs w) dst then (w, Raised PermissionError)
              else
                match resolve (fs w) (dirname dst) with
                | inl e => (w, Raised e)
                | inr (File _ _) => (w, Raised NotADirectoryError)
                | inr (Dir _) | inr (Locked _) =>
                    match store (fs w) dst (File data meta) with
                    | Some n' => (set_fs w n', Returned tt)
                    | None => (w, Raised FileNotFoundError)
                    end
                end
          end
      end.

(** [shutil.rmtree(path)] for [path = parent/name]: the directory and
    all it holds leave the listing of [parent]; a path that is no
    directory is refused, and a directory that cannot be listed stops
    the removal where it stands, with what was removed before it gone
    and [PermissionError] raised. *)
Definition rmtree (parent : path) (name : string) : M unit :=
  fun w =>
    match resolve (fs w) (parent ++ [name]) with
    | inl e => (w, Raised e)
    | inr (File _ _) => (w, Raised NotADirectoryError)
    | inr t =>
        match remains t with
        | Some t' =>
            match store (fs w) (parent ++ [name]) t' with
            | Some n' => (set_fs w n', Raised PermissionError)
            | None => (w, Raised PermissionError)
            end
        | None =>
            match resolve (fs w) parent with
            | inr (Dir es) =>
                match store (fs w) parent (Dir (remove_entry name es)) with
                | Some n' => (set_fs w n', Returned tt)
                | None => (w, Raised FileNotFoundError)
                end
            | inr (Locked es) =>
                match store (fs w) parent (Locked (remove_entry name es)) with
                | Some n' => (set_fs w n', Returned tt)
                | None => (w, Raised FileNotFoundError)
                end
            | _ => (w, Raised FileNotFoundError)
            end
        end
    end.

End shutil.

(** The ignore matcher is called: the call is logged, its answer
    returned. *)
Definition call (gitignore : path -> bool) (relative : path) : M bool :=
  fun w =>
    ({| fs := fs w; queried := queried w ++ [relative] |},
     Returned (gitignore relative)).

(** ** The copier *)

Fixpoint copyNotGitignoreTree (fuel : nat) (sourceBase targetBase relative : path)
  (gitignore : path -> bool) : M unit :=
  match fuel with
  | 0 => out_of_fuel
  | S fuel' =>
      let source := sourceBase ++ relative in
      let target := targetBase ++ relative in
      d <- os.isdir source ;;
      if d then
        children <- os.listdir source ;;
        for_each children (fun child =>
          copyNotGitignoreTree fuel' sourceBase targetBase
            (relative ++ [child]) gitignore)
      else
        ignored <- call gitignore relative ;;
        if negb ignored then
          t <- os.isdir (dirname target) ;;
          (if negb t then os.makedirs (dirname target) else ret tt) ;;;
          shutil.copy2 source target
        else ret tt
  end.

(** ** The callers of the copier: file-system steps *)

(** [if os.path.isdir(p): shutil.rmtree(p)] followed by [os.makedirs(p)],
    the way [main] clears [build] and then [build/overrides];
    [p = parent/name]. *)
Definition fresh_directory (parent : path) (name : string) : M unit :=
  let target_dir := parent ++ [name] in
  d <- os.isdir target_dir ;;
  (if d then shutil.rmtree parent name else ret tt) ;;;
  os.makedirs target_dir.

(** The first two statements of [createModpackZip]. *)
Definition createModpackZip_begin : M unit :=
  let targetDir := ["build"; "curseforge"] in
  os.makedirs targetDir ;;;
  shutil.copy2 ["manifest.json"] (targetDir ++ ["manifest.json"]).

(** [for entry in overrides: copyNotGitignoreTree('.', targetDir, entry,
    gitignore)], the loop of [createModpackZip] and of [createServerZip];
    the working directory [.] is the root of the tree. *)
Definition copy_overrides (fuel : nat) (targetDir : path)
  (overrides : list path) (gitignore : path -> bool) : M unit :=
  for_each overrides (fun entry =>
    copyNotGitignoreTree fuel [] targetDir entry gitignore).

(** ** The callers of the copier: text

    A [str] is the string of its bytes (UTF-8); a text file is the [str]
    that reading it gives.  [str.strip] and [int] are the library's and
    stay arguments. *)

Definition newline : ascii := "010"%char.
Definition nl : string := String newline EmptyString.

(** [s.split(sep)] for a separator of one character. *)
Fixpoint split (sep : ascii) (s : string) : list string :=
  match s with
  | EmptyString => [EmptyString]
  | String c r =>
      if Ascii.eqb c sep then EmptyString :: split sep r
      else match split sep r with
           | [] => [String c EmptyString]
           | l :: ls => String c l :: ls
           end
  end.

(** [c in s] for a character. *)
Fixpoint contains (c : ascii) (s : string) : bool :=
  match s with
  | EmptyString => false
  | String a r => Ascii.eqb a c || contains c r
  end.

Fixpoint count (c : ascii) (s : string) : nat :=
  match s with
  | EmptyString => 0
  | String a r => (if Ascii.eqb a c then 1 else 0) + count c r
  end.

(** An [int] in an f-string. *)
Definition str_of_int (z : Z) : string := NilZero.string_of_int (Z.to_int z).

(** [[x.strip() for x in file.read().split('\n')]] on [overrides.txt]. *)
Definition read_overrides (strip : string -> string) (overrides_txt : string)
  : list string :=
  map strip (split newline overrides_txt).

(** The exceptions of the text steps. *)
Inductive exception : Type := ValueError | IndexError.

(** A file open for reading is the text no [read()] has returned yet;
    [read()] returns all of it and leaves none. *)
Definition read (file : string) : string * string := (file, EmptyString).

(** [[int(x.strip()) for x in xs]]; [int] answers [None] where Python
    raises [ValueError]. *)
Fixpoint ints (int : string -> option Z) (strip : string -> string)
  (xs : list string) : exception + list Z :=
  match xs with
  | [] => inr []
  | x :: r =>
      match int (strip x) with
      | None => inl ValueError
      | Some z =>
          match ints int strip r with
          | inl e => inl e
          | inr zs => inr (z :: zs)
          end
      end
  end.

(** The block of [createServerZip] that reads [clientmods.txt]. *)
Definition read_clientmods (int : string -> option Z) (strip : string -> string)
  (clientmods_txt : string) : exception + list Z :=
  let clientmods := [] in
  let file := clientmods_txt in
  let (text, file) := read file in
  if negb (String.eqb text "") then
    let (text', _) := read file in
    ints int strip (split newline text')
  else inr clientmods.

(** The keys of the manifest the script reads: [version],
    [minecraft.version], the [id] of each of [minecraft.modLoaders],
    [projectID] and [fileID] of each of [files], and [overrides]. *)
Record mod_file : Type := { projectID : Z; fileID : Z }.

Record manifest : Type := {
  version : string;
  minecraft_version : string;
  modLoaders : list string;
  files : list mod_file;
  overrides : string
}.

Definition strip_forge (mlv : string) : string :=
  if String.prefix "forge-" mlv
  then substring 6 (String.length mlv - 6) mlv
  else mlv.

Definition mod_line (f : mod_file) : string :=
  (str_of_int (projectID f) ++ "/" ++ str_of_int (fileID f) ++ nl)%string.

(** The loop over [manifest['files']]; [out] is what the file holds. *)
Fixpoint write_mods (clientmods : list Z) (mods : list mod_file) (out : string)
  : string :=
  match mods with
  | [] => out
  | f :: r =>
      write_mods clientmods r
        (if negb (existsb (Z.eqb (projectID f)) clientmods)
         then (out ++ mod_line f)%string
         else out)
  end.

(** The block of [createServerZip] that writes [server.txt]: the text
    written, and how the block ends. *)
Definition write_server_txt (m : manifest) (clientmods : list Z)
  : string * (exception + unit) :=
  let out := EmptyString in
  let mcv := minecraft_version m in
  match modLoaders m with
  | [] => (out, inl IndexError)
  | mlv :: _ =>
      let mlv := strip_forge mlv in
      let out := (out ++ (mcv ++ "/" ++ mlv ++ nl))%string in
      (write_mods clientmods (files m) out, inr tt)
  end.

(** Both blocks in a row: [server.txt] is opened only when
    [clientmods.txt] has been read. *)
Definition createServerZip_modlist (int : string -> option Z)
  (strip : string -> string) (clientmods_txt : string) (m : manifest)
  : option string * (exception + unit) :=
  match read_clientmods int strip clientmods_txt with
  | inl e => (None, inl e)
  | inr clientmods =>
      let (out, r) := write_server_txt m clientmods in (Some out, r)
  end.

(** The section sign of the [motd] line. *)
Definition section_sign : string :=
  String "194"%char (String "167"%char EmptyString).

(** What [f.writelines([...])] puts into [server.properties]. *)
Definition server_properties (modpack_name : string) (m : manifest) : string :=
  String.concat EmptyString
    [ ("allow-flight=true" ++ nl)%string;
      ("enable-command-block=true" ++ nl)%string;
      ("max-players=32" ++ nl)%string;
      ("motd=" ++ section_sign ++ modpack_name ++ "\nv" ++ version m
         ++ section_sign ++ "r")%string;
      ("online-mode=true" ++ nl)%string;
      ("spawn-protection=0" ++ nl)%string;
      ("view-distance=8" ++ nl)%string ].

(** * Vocabulary of the proofs *)

Definition prefix (p q : path) : Prop := exists r, q = p ++ r.

(** Every regular file of the tree can be written by its owner. *)
Fixpoint files_writable (n : node) : bool :=
  match n with
  | File _ meta => writable meta
  | Dir es | Locked es =>
      (fix entries_writable (l : list (string * node)) : bool :=
         match l with
         | [] => true
         | (_, c) :: r => files_writable c && entries_writable r
         end) es
  end.

(** Every directory of the tree can be listed. *)
Fixpoint dirs_listable (n : node) : bool :=
  match n with
  | File _ _ => true
  | Locked _ => false
  | Dir es =>
      (fix entries_listable (l : list (string * node)) : bool :=
         match l with
         | [] => true
         | (_, c) :: r => dirs_listable c && entries_listable r
         end) es
  end.

(** How two paths can lie to one another. *)
Inductive path_rel (p q : path) : Prop :=
| rel_apart : ~ prefix p q -> ~ prefix q p -> path_rel p q
| rel_same : p = q -> path_rel p q
| rel_above x r : q = p ++ x :: r -> path_rel p q
| rel_below x r : p = q ++ x :: r -> path_rel p q.

(** [grows t w w']: from [w] to [w'] only new, empty directories appeared,
    all of them on the way to [t]; the regular files are the same. *)
Record grows (t : path) (w w' : world) : Prop := {
  grows_log : queried w' = queried w;
  grows_off : forall p, ~ prefix p t -> resolve (fs w') p = resolve (fs w) p;
  grows_dirs : forall p, is_dir (fs w) p = true -> is_dir (fs w') p = true;
  grows_files : forall p d m,
      resolve (fs w) p = inr (File d m) -> resolve (fs w') p = inr (File d m);
  grows_old : forall p d m,
      resolve (fs w') p = inr (File d m) -> resolve (fs w) p = inr (File d m)
}.

(** [touches T n n']: what a copy below the destination entry [T] may do
    to the tree.  Paths off the branch of [T] resolve as before, nothing
    that exists disappears or changes its kind, and a regular file
    outside [T] keeps its bytes and metadata. *)
Record touches (T : path) (n n' : node) : Prop := {
  t_apart : forall p, ~ prefix T p -> ~ prefix p T -> resolve n' p = resolve n p;
  t_dirs : forall p, is_dir n p = true -> is_dir n' p = true;
  t_files : forall p d m,
      resolve n p = inr (File d m) -> exists d' m', resolve n' p = inr (File d' m');
  t_outside : forall p d m,
      resolve n p = inr (File d m) -> ~ prefix T p -> resolve n' p = inr (File d m)
}.

(** The names [os.listdir] reports, none when [p] is no directory that
    can be listed. *)
Definition children (n : node) (p : path) : list string :=
  match resolve n p with
  | inr (Dir es) => map fst es
  | _ => []
  end.

(** The number of nested calls the source entry needs. *)
Definition source_height (n : node) (p : path) : nat :=
  match resolve n p with
  | inr a => height a
  | inl _ => 0
  end.

(** What the copier does with an entry that is not a directory: the
    second branch of [copyNotGitignoreTree]. *)
Definition copy_leaf (sourceBase targetBase : path) (gitignore : path -> bool)
  (relative : path) : M unit :=
  let source := sourceBase ++ relative in
  let target := targetBase ++ relative in
  ignored <- call gitignore relative ;;
  if negb ignored then
    t <- os.isdir (dirname target) ;;
    (if negb t then os.makedirs (dirname target) else ret tt) ;;;
    shutil.copy2 source target
  else ret tt.

(** What the copier does with an entry that it does not list: a
    directory without read permission makes [os.listdir] raise, any
    other entry is a leaf. *)
Definition visit (sourceBase targetBase : path) (gitignore : path -> bool)
  (relative : path) : M unit :=
  fun w =>
    if is_dir (fs w) (sourceBase ++ relative)
    then (w, Raised PermissionError)
    else copy_leaf sourceBase targetBase gitignore relative w.

(** The state in which the ignore matcher has answered. *)
Definition asked (w : world) (relative : path) : world :=
  {| fs := fs w; queried := queried w ++ [relative] |}.

(** The walk over a frozen source tree: [walk sourceBase fuel n relative]
    lists, in the order of the recursion, the entries at which the copier
    does not loop over a listing when the source tree is [n] throughout:
    those at which it reaches its second branch and the directories it
    cannot list; [None] stands for a call that finds the fuel used up. *)
Fixpoint walk (sourceBase : path) (fuel : nat) (n : node) (relative : path)
  : list (option path) :=
  match fuel with
  | 0 => [None]
  | S fuel' =>
      if listable n (sourceBase ++ relative)
      then flat_map (fun child => walk sourceBase fuel' n (relative ++ [child]))
             (children n (sourceBase ++ relative))
      else [Some relative]
  end.

(** [stopped sourceBase n l]: the walk [l] does not get through: the fuel
    runs out, or a directory cannot be listed. *)
Definition stopped (sourceBase : path) (n : node) (l : list (option path))
  : Prop :=
  In None l \/ exists r, In (Some r) l /\ is_dir n (sourceBase ++ r) = true.

Definition item_step (sourceBase targetBase : path) (gitignore : path -> bool)
  (i : option path) : M unit :=
  match i with
  | Some relative => visit sourceBase targetBase gitignore relative
  | None => out_of_fuel
  end.

Definition run_items (sourceBase targetBase : path) (gitignore : path -> bool)
  (l : list (option path)) : M unit :=
  for_each l (item_step sourceBase targetBase gitignore).

(** Source and destination entry lie on different branches. *)
Definition separate (sourceBase targetBase relative : path) : Prop :=
  comparable (sourceBase ++ relative) (targetBase ++ relative) = false.

(** [leaf sourceBase n relative r]: from [relative] down to [r] the source
    has directories that can be listed, and [r] itself is not one. *)
Definition leaf (sourceBase : path) (n : node) (relative r : path) : Prop :=
  exists u, r = relative ++ u /\
    listable n (sourceBase ++ r) = false /\
    forall u1 x u2, u = u1 ++ x :: u2 ->
                    listable n (sourceBase ++ relative ++ u1) = true.

(** The source entry is what it was in [n0]. *)
Definition source_kept (sourceBase relative : path) (n0 : node) (w : world) : Prop :=
  resolve (fs w) (sourceBase ++ relative) = resolve n0 (sourceBase ++ relative).

(** [settled ... n r]: in [n], copying the leaf [r] writes what is there
    already, into a file that can be written. *)
Definition settled (sourceBase targetBase : path) (gitignore : path -> bool)
  (n : node) (r : path) : Prop :=
  gitignore r = true \/
  (is_dir n (dirname (targetBase ++ r)) = true /\
   exists d m,
     writable m = true /\
     resolve n (sourceBase ++ r) = inr (File d m) /\
     resolve n (shutil.copy2_target n (sourceBase ++ r) (targetBase ++ r))
     = inr (File d m)).

(** [written ... p]: [p] is where [copy2] puts some regular file of the
    source that the matcher does not exclude: its mirrored path, or the
    entry of its own name inside it. *)
Definition written (sourceBase targetBase : path) (gitignore : path -> bool)
  (relative : path) (n0 : node) (p : path) : Prop :=
  exists r d m,
    leaf sourceBase n0 relative r /\ gitignore r = false /\
    resolve n0 (sourceBase ++ r) = inr (File d m) /\
    (p = targetBase ++ r \/
     p = (targetBase ++ r) ++ [basename (sourceBase ++ r)]).

(** [needed ... p]: [p] lies on the way to the mirrored path of some
    regular file of the source that the matcher does not exclude. *)
Definition needed (sourceBase targetBase : path) (gitignore : path -> bool)
  (relative : path) (n0 : node) (p : path) : Prop :=
  exists r d m,
    leaf sourceBase n0 relative r /\ gitignore r = false /\
    resolve n0 (sourceBase ++ r) = inr (File d m) /\
    prefix p (dirname (targetBase ++ r)).

(** What a run may add between two states, read off its log [qs] of
    matcher calls: every logged entry lies at or below [relative]; a
    directory of the second state was there in the first or lies on the
    way to the mirrored path of a logged entry that is not excluded; a
    regular file of the second state was there, with the same bytes and
    metadata, or is where [copy2] writes for such an entry. *)
Definition creates (sourceBase targetBase : path) (gitignore : path -> bool)
  (relative : path) (w w' : world) : Prop :=
  exists qs,
    queried w' = queried w ++ qs /\
    (forall r, In r qs -> prefix relative r) /\
    (forall p,
        is_dir (fs w') p = true ->
        is_dir (fs w) p = true \/
        exists r, In r qs /\ gitignore r = false /\
                  prefix p (dirname (targetBase ++ r))) /\
    (forall p d m,
        resolve (fs w') p = inr (File d m) ->
        resolve (fs w) p = inr (File d m) \/
        exists r, In r qs /\ gitignore r = false /\
                  (p = targetBase ++ r \/
                   p = (targetBase ++ r) ++ [basename (sourceBase ++ r)])).

(** The override entries lie apart from the staging directory and from
    one another: no entry is the staging directory, inside it or above
    it, and no entry is another entry or inside one. *)
Fixpoint entries_apart (targetDir : path) (entries : list path) : bool :=
  match entries with
  | [] => true
  | e :: r =>
      negb (comparable e targetDir)
      && forallb (fun e' => negb (comparable e e')) r
      && entries_apart targetDir r
  end.

(** * Example trees and matchers *)

Definition meta0 : stat_result := {| st_mode := 420; st_mtime := 1700000000 |}.
Definition meta1 : stat_result := {| st_mode := 493; st_mtime := 1600000000 |}.

Definition fresh (n : node) : world := {| fs := n; queried := [] |}.

Definition ignore_nothing (p : path) : bool := false.
Definition ignore_all (p : path) : bool := true.

Definition ignore_log (p : path) : bool :=
  match p with
  | ["a"; "ignore.log"] => true
  | _ => false
  end.

(** A matcher that excludes the directory [a] itself and nothing else. *)
Definition ignore_dir_a (p : path) : bool := path_eqb p ["a"].

(** The scenario of the specification: [a/b.txt] and [a/ignore.log] in the
    working tree, an empty [build] next to them, [*.log] ignored. *)
Definition tree_ab : node :=
  Dir [("a", Dir [("b.txt", File [Byte.x62] meta0);
                  ("ignore.log", File [Byte.x6c] meta1)]);
       ("build", Dir [])].

(** A destination that already has a directory where the source has the
    regular file [a/f]. *)
Definition tree_dir_at_mirror : node :=
  Dir [("a", Dir [("f", File [Byte.x66] meta0)]);
       ("build", Dir [("a", Dir [("f", Dir [])])])].

(** A destination in which an earlier staging step left [a/ignore.log]. *)
Definition tree_prefilled : node :=
  Dir [("a", Dir [("b.txt", File [Byte.x62] meta0);
                  ("ignore.log", File [Byte.x6c] meta1)]);
       ("build", Dir [("a", Dir [("ignore.log", File [Byte.x6f] meta0)])])].

(** A source entry holding only an empty directory and an ignored file. *)
Definition tree_only_ignored : node :=
  Dir [("a", Dir [("empty", Dir []); ("ignore.log", File [Byte.x6c] meta1)]);
       ("build", Dir [])].

(** A directory whose listing is not in lexicographic order. *)
Definition tree_unsorted : node :=
  Dir [("a", Dir [("z.txt", File [Byte.x7a] meta0);
                  ("b.txt", File [Byte.x62] meta0)]);
       ("build", Dir [])].

(** A destination whose directory [a/f] holds a file [f] of its own. *)
Definition tree_nested_f : node :=
  Dir [("a", Dir [("f", File [Byte.x6e] meta1)]);
       ("build", Dir [("a", Dir [("f", Dir [("f", File [Byte.x6f] meta0)])])])].

(** The entry [r], holding [x] and a directory [r] with an [x] of its own;
    copied into [r/r], each level of the copy plants the next one. *)
Definition file_x : node := File [Byte.x78] meta0.
Definition level : node := Dir [("x", file_x); ("r", Dir [("x", file_x)])].
Definition tree_replicating : node := Dir [("r", level)].

(** A tree whose entry [r] is copied into the destination [r]. *)
Definition tree_inside : node := Dir [("r", Dir [("x", file_x)])].

(** The same with a file [r/r/x] where the copy of [r/x] goes. *)
Definition tree_overlap : node :=
  Dir [("r", Dir [("x", File [Byte.x41] meta0);
                  ("r", Dir [("x", File [Byte.x42] meta1)])])].

(** A matcher that excludes the directory [r] itself and nothing else. *)
Definition ignore_dir_r (p : path) : bool := path_eqb p ["r"].

(** The directory [a] cannot be listed. *)
Definition tree_locked_a : node :=
  Dir [("a", Locked [("b.txt", File [Byte.x62] meta0)]);
       ("build", Dir [])].

(** The file [a/b.txt] is read-only (mode 0444). *)
Definition meta_read_only : stat_result :=
  {| st_mode := 292; st_mtime := 1700000000 |}.

Definition tree_read_only : node :=
  Dir [("a", Dir [("b.txt", File [Byte.x62] meta_read_only)]);
       ("build", Dir [])].

(** A working tree with two override entries, [a] and [config], and an
    empty staging directory. *)
Definition tree_two_entries : node :=
  Dir [("a", Dir [("b.txt", File [Byte.x62] meta0);
                  ("ignore.log", File [Byte.x6c] meta1)]);
       ("config", Dir [("c.cfg", File [Byte.x63] meta0)]);
       ("build", Dir [])].

(** A working tree as an earlier release left it. *)
Definition tree_stale_build : node :=
  Dir [("manifest.json", File [Byte.x7b; Byte.x7d] meta0);
       ("build", Dir [("curseforge", Dir [("old.txt", File [Byte.x6f] meta1)])])].

(** The same with [build] cleared. *)
Definition tree_cleared_build : node :=
  Dir [("manifest.json", File [Byte.x7b; Byte.x7d] meta0);
       ("build", Dir [])].

(** A working tree in which [build] is a regular file. *)
Definition tree_build_is_file : node :=
  Dir [("build", File [Byte.x62] meta0)].

(** ** Example texts *)

(** [int] on decimal literals, and [strip] on the white space of ASCII
    (tab to carriage return, the four separators 28 to 31, the blank). *)
Definition int_decimal (s : string) : option Z :=
  option_map Z.of_int (NilZero.int_of_string s).

Definition is_space (c : ascii) : bool :=
  match nat_of_ascii c with
  | 9 | 10 | 11 | 12 | 13 | 28 | 29 | 30 | 31 | 32 => true
  | _ => false
  end.

Fixpoint lstrip (l : list ascii) : list ascii :=
  match l with
  | c :: r => if is_space c then lstrip r else l
  | [] => []
  end.

Definition strip_blanks (s : string) : string :=
  string_of_list_ascii
    (rev (lstrip (rev (lstrip (list_ascii_of_string s))))).

Definition manifest_example : manifest :=
  {| version := "1.2.0";
     minecraft_version := "1.16.5";
     modLoaders := ["forge-36.2.0"];
     files := [ {| projectID := 238222; fileID := 3043174 |};
                {| projectID := 306612; fileID := 3219669 |} ];
     overrides := "overrides" |}.

(** * Facts about paths *)

Lemma is_prefix_spec (p q : path) : is_prefix p q = true <-> prefix p q.
Proof.
  unfold prefix. revert q. induction p as [|x p IH]; intros q; simpl.
  - split; [intros _; now exists q | reflexivity].
  - destruct q as [|y q].
    + split; [discriminate | intros [r Hr]; discriminate].
    + rewrite andb_true_iff, String.eqb_eq, IH. split.
      * intros [-> [r ->]]. now exists r.
      * intros [r Hr]. injection Hr as -> ->. split; [reflexivity | now exists r].
Qed.

Lemma is_prefix_false (p q : path) : is_prefix p q = false <-> ~ prefix p q.
Proof.
  rewrite <- is_prefix_spec. destruct (is_prefix p q); split; intros; congruence.
Qed.

Lemma path_eqb_spec (p q : path) : path_eqb p q = true <-> p = q.
Proof.
  revert q. induction p as [|x p IH]; intros [|y q]; simpl;
    try (split; [discriminate | intros; discriminate]); try tauto.
  rewrite andb_true_iff, String.eqb_eq, IH. split.
  - now intros [-> ->].
  - intros H. injection H as -> ->. tauto.
Qed.

Lemma prefix_trans (p q r : path) : prefix p q -> prefix q r -> prefix p r.
Proof. intros [a ->] [b ->]. exists (a ++ b). now rewrite app_assoc. Qed.

(** Two ancestors of one path lie on one branch. *)
Lemma prefix_same_path (p q r : path) :
  prefix p r -> prefix q r -> prefix p q \/ prefix q p.
Proof.
  revert q r. induction p as [|x p IH]; intros q r Hp Hq.
  - left. now exists q.
  - destruct q as [|y q].
    + right. now exists (x :: p).
    + destruct Hp as [a ->]. destruct Hq as [b Hb]. simpl in Hb.
      injection Hb as <- Hb.
      destruct (IH q (p ++ a)) as [[c ->] | [c ->]].
      * now exists a.
      * now exists b.
      * left. now exists c.
      * right. now exists c.
Qed.

Lemma comparable_false (p q : path) :
  comparable p q = false <-> ~ prefix p q /\ ~ prefix q p.
Proof.
  unfold comparable. rewrite orb_false_iff, !is_prefix_false. tauto.
Qed.

(** Incomparable paths stay incomparable whatever is appended to them. *)
Lemma comparable_app (p q u v : path) :
  comparable p q = false -> comparable (p ++ u) (q ++ v) = false.
Proof.
  rewrite !comparable_false. intros [H1 H2]. split; intros H.
  - destruct (prefix_same_path p q (q ++ v)) as [H3 | H3]; try tauto.
    + eapply prefix_trans; [now exists u | exact H].
    + now exists v.
  - destruct (prefix_same_path p q (p ++ u)) as [H3 | H3]; try tauto.
    + now exists u.
    + eapply prefix_trans; [now exists v | exact H].
Qed.

Lemma path_cases (p q : path) : path_rel p q.
Proof.
  destruct (is_prefix p q) eqn:E1.
  - apply is_prefix_spec in E1. destruct E1 as [[|x r] ->].
    + apply rel_same. now rewrite app_nil_r.
    + now apply rel_above with x r.
  - destruct (is_prefix q p) eqn:E2.
    + apply is_prefix_spec in E2. destruct E2 as [[|x r] ->].
      * apply rel_same. now rewrite app_nil_r.
      * now apply rel_below with x r.
    + apply rel_apart; now apply is_prefix_false.
Qed.

Lemma dirname_snoc (p : path) (x : string) : dirname (p ++ [x]) = p.
Proof. unfold dirname. apply removelast_last. Qed.

Lemma path_snoc_cases (p : path) : p = [] \/ exists q x, p = q ++ [x].
Proof.
  destruct p as [|y p]; [now left | right].
  destruct (@exists_last _ (y :: p)) as [q [x ->]]; [discriminate | eauto].
Qed.

Lemma dirname_prefix (p : path) : prefix (dirname p) p.
Proof.
  destruct (path_snoc_cases p) as [-> | [q [x ->]]].
  - now exists [].
  - rewrite dirname_snoc. now exists [x].
Qed.

(** * Facts about the file-system tree *)

Lemma find_set_same x v es : find_entry x (set_entry x v es) = Some v.
Proof.
  induction es as [|[k c] r IH]; simpl.
  - now rewrite String.eqb_refl.
  - destruct (String.eqb k x) eqn:E; simpl; rewrite E; auto.
Qed.

Lemma find_set_other x y v es :
  x <> y -> find_entry y (set_entry x v es) = find_entry y es.
Proof.
  intros Hxy. induction es as [|[k c] r IH]; simpl.
  - destruct (String.eqb x y) eqn:E; [apply String.eqb_eq in E; tauto | reflexivity].
  - destruct (String.eqb k x) eqn:E; simpl.
    + apply String.eqb_eq in E. subst k.
      destruct (String.eqb x y) eqn:E'; [apply String.eqb_eq in E'; tauto | reflexivity].
    + now rewrite IH.
Qed.

Lemma set_entry_id x v es : find_entry x es = Some v -> set_entry x v es = es.
Proof.
  induction es as [|[k c] r IH]; simpl; [discriminate|].
  destruct (String.eqb k x) eqn:E.
  - now intros [= ->].
  - intros H. now rewrite IH.
Qed.

Lemma resolve_app n p q :
  resolve n (p ++ q) =
  match resolve n p with
  | inr m => resolve m q
  | inl e => inl e
  end.
Proof.
  revert n. induction p as [|x p IH]; intros n; simpl; [reflexivity|].
  destruct n as [d m | es | es]; [reflexivity| |];
    (destruct (find_entry x es); [apply IH | reflexivity]).
Qed.

Lemma store_same n p v n' : store n p v = Some n' -> resolve n' p = inr v.
Proof.
  revert n n'. induction p as [|x q IH]; intros n n'; simpl.
  - now intros [= ->].
  - destruct n as [d m | es | es]; [discriminate| |];
      (destruct q as [|y q'];
       [ intros [= <-]; simpl; now rewrite find_set_same
       | destruct (find_entry x es) as [c|]; [|discriminate];
         destruct (store c (y :: q') v) as [c'|] eqn:E; [|discriminate];
         intros [= <-]; cbn [resolve]; rewrite find_set_same;
         now apply IH in E ]).
Qed.

(** A store is invisible from every path on another branch. *)
Lemma store_apart n q v n' p :
  store n q v = Some n' -> ~ prefix q p -> ~ prefix p q ->
  resolve n' p = resolve n p.
Proof.
  revert n n' p. induction q as [|x q IH]; intros n n' p Hs Hqp Hpq.
  - exfalso. apply Hqp. now exists p.
  - destruct p as [|y p]; [exfalso; apply Hpq; now exists (x :: q)|].
    simpl in Hs. destruct n as [d m | es | es]; [discriminate| |];
      (destruct (String.eqb x y) eqn:Exy;
       [ apply String.eqb_eq in Exy; subst y;
         destruct q as [|z q'];
         [ exfalso; apply Hqp; now exists p
         | destruct (find_entry x es) as [c|] eqn:Ef; [|discriminate];
           destruct (store c (z :: q') v) as [c'|] eqn:E; [|discriminate];
           injection Hs as <-; cbn [resolve]; rewrite find_set_same, Ef;
           apply IH with (p := p) in E;
           [ exact E
           | intros [r Hr]; apply Hqp; exists r; simpl; now rewrite Hr
           | intros [r Hr]; apply Hpq; exists r; simpl; now rewrite Hr ] ]
       | apply String.eqb_neq in Exy;
         destruct q as [|z q'];
         [ injection Hs as <-; cbn [resolve]; now rewrite find_set_other
         | destruct (find_entry x es) as [c|]; [|discriminate];
           destruct (store c (z :: q') v) as [c'|]; [|discriminate];
           injection Hs as <-; cbn [resolve]; now rewrite find_set_other ] ]).
Qed.

Lemma store_cons es x q v :
  q <> [] ->
  store (Dir es) (x :: q) v =
  match find_entry x es with
  | None => None
  | Some c =>
      match store c q v with
      | None => None
      | Some c' => Some (Dir (set_entry x c' es))
      end
  end.
Proof. destruct q; [congruence | reflexivity]. Qed.

Lemma store_cons_locked es x q v :
  q <> [] ->
  store (Locked es) (x :: q) v =
  match find_entry x es with
  | None => None
  | Some c =>
      match store c q v with
      | None => None
      | Some c' => Some (Locked (set_entry x c' es))
      end
  end.
Proof. destruct q; [congruence | reflexivity]. Qed.

(** A store below [p] leaves [p] the directory it was. *)
Lemma store_above n p x r v n' :
  store n (p ++ x :: r) v = Some n' ->
  is_dir n p = true /\ is_dir n' p = true.
Proof.
  unfold is_dir. revert n n'. induction p as [|y p IH]; intros n n'.
  - simpl. destruct n as [d m | es | es]; [discriminate| |];
      (destruct r as [|z r'];
       [ now intros [= <-]
       | destruct (find_entry x es); [|discriminate];
         destruct (store n (z :: r') v); [|discriminate]; now intros [= <-] ]).
  - cbn [app]. destruct n as [d m | es | es]; [discriminate| |].
    + rewrite store_cons by (destruct p; discriminate).
      destruct (find_entry y es) as [c|] eqn:Ef; [|discriminate].
      destruct (store c (p ++ x :: r) v) as [c'|] eqn:E; [|discriminate].
      intros [= <-]. cbn [resolve]. rewrite find_set_same, Ef.
      now apply IH in E.
    + rewrite store_cons_locked by (destruct p; discriminate).
      destruct (find_entry y es) as [c|] eqn:Ef; [|discriminate].
      destruct (store c (p ++ x :: r) v) as [c'|] eqn:E; [|discriminate].
      intros [= <-]. cbn [resolve]. rewrite find_set_same, Ef.
      now apply IH in E.
Qed.

Lemma store_id n p v : resolve n p = inr v -> store n p v = Some n.
Proof.
  revert n. induction p as [|x q IH]; intros n; simpl.
  - now intros [= ->].
  - destruct n as [d m | es | es]; [discriminate| |];
      (destruct (find_entry x es) as [c|] eqn:Ef; [|discriminate];
       destruct q as [|y q'];
       [ simpl; intros [= ->]; now rewrite set_entry_id
       | intros H; rewrite (IH _ H); now rewrite set_entry_id ]).
Qed.

Lemma is_dir_resolve n p :
  is_dir n p = true <->
  exists es, resolve n p = inr (Dir es) \/ resolve n p = inr (Locked es).
Proof.
  unfold is_dir. destruct (resolve n p) as [e | [d m | es | es]]; split;
    try discriminate; try (intros [es' [H|H]]; discriminate); eauto.
Qed.

Lemma listable_resolve n p :
  listable n p = true <-> exists es, resolve n p = inr (Dir es).
Proof.
  unfold listable. destruct (resolve n p) as [e | [d m | es | es]]; split;
    try discriminate; try (intros [es' H]; discriminate); eauto.
Qed.

Lemma listable_is_dir n p : listable n p = true -> is_dir n p = true.
Proof.
  unfold listable, is_dir. now destruct (resolve n p) as [e | [d m | es | es]].
Qed.

Lemma not_dir_not_listable n p : is_dir n p = false -> listable n p = false.
Proof.
  unfold listable, is_dir. now destruct (resolve n p) as [e | [d m | es | es]].
Qed.

Lemma resolve_below_file n p d m x r :
  resolve n p = inr (File d m) -> resolve n (p ++ x :: r) = inl NotADirectoryError.
Proof. intros H. now rewrite resolve_app, H. Qed.

Lemma resolve_below_missing n p e r : resolve n p = inl e -> resolve n (p ++ r) = inl e.
Proof. intros H. now rewrite resolve_app, H. Qed.

(** Whatever resolves has directories all the way above it. *)
Lemma resolve_above_dir n p x r a :
  resolve n (p ++ x :: r) = inr a -> is_dir n p = true.
Proof.
  rewrite resolve_app. unfold is_dir.
  destruct (resolve n p) as [e | [d m | es | es]]; simpl; congruence.
Qed.

(** Writing a regular file where no directory is: directories stay,
    every other regular file keeps its bytes and metadata. *)
Lemma store_file_dirs n q d m n' p :
  store n q (File d m) = Some n' -> is_dir n q = false ->
  is_dir n p = true -> is_dir n' p = true.
Proof.
  intros Hs Hq Hp. destruct (path_cases p q) as [H1 H2 | -> | x r -> | x r ->].
  - unfold is_dir. now rewrite (store_apart _ _ _ _ _ Hs H2 H1).
  - congruence.
  - now apply store_above in Hs.
  - apply is_dir_resolve in Hp. destruct Hp as [es [Hp|Hp]];
      apply resolve_above_dir in Hp; congruence.
Qed.

Lemma store_file_others n q d m n' p d0 m0 :
  store n q (File d m) = Some n' -> is_dir n q = false ->
  p <> q -> resolve n p = inr (File d0 m0) -> resolve n' p = inr (File d0 m0).
Proof.
  intros Hs Hq Hpq Hp. destruct (path_cases p q) as [H1 H2 | -> | x r -> | x r ->].
  - now rewrite (store_apart _ _ _ _ _ Hs H2 H1).
  - congruence.
  - apply store_above in Hs. destruct Hs as [Hs _]. unfold is_dir in Hs.
    rewrite Hp in Hs. discriminate.
  - apply resolve_above_dir in Hp. congruence.
Qed.

Lemma find_entry_In x es c : find_entry x es = Some c -> In x (map fst es).
Proof.
  induction es as [|[k c0] r IH]; simpl; [discriminate|].
  destruct (String.eqb k x) eqn:E.
  - apply String.eqb_eq in E. now left.
  - intros H. right. auto.
Qed.

Lemma In_find_entry x es : In x (map fst es) -> exists c, find_entry x es = Some c.
Proof.
  induction es as [|[k c0] r IH]; simpl; [tauto|].
  intros [H|H]; destruct (String.eqb k x) eqn:E; eauto.
  subst k. now rewrite String.eqb_refl in E.
Qed.

Lemma height_entry x es c : find_entry x es = Some c -> height c < height (Dir es).
Proof.
  cbn [height]. induction es as [|[k c0] r IH]; simpl; [discriminate|].
  destruct (String.eqb k x).
  - intros [= ->]. lia.
  - intros H. specialize (IH H). lia.
Qed.

Lemma height_locked es : height (Locked es) = height (Dir es).
Proof. reflexivity. Qed.

Lemma files_writable_entry x es c :
  files_writable (Dir es) = true -> find_entry x es = Some c ->
  files_writable c = true.
Proof.
  cbn [files_writable]. induction es as [|[k c0] r IH]; simpl; [discriminate|].
  intros H. apply andb_true_iff in H. destruct H as [H1 H2].
  destruct (String.eqb k x).
  - now intros [= <-].
  - now apply IH.
Qed.

Lemma files_writable_resolve p : forall n data meta,
  files_writable n = true -> resolve n p = inr (File data meta) ->
  writable meta = true.
Proof.
  induction p as [|x q IH]; intros n data meta Hn H.
  - simpl in H. injection H as ->. exact Hn.
  - simpl in H. destruct n as [d m | es | es]; [discriminate| |];
      (destruct (find_entry x es) as [c|] eqn:E; [|discriminate];
       apply (IH c data meta); [|exact H];
       now apply (files_writable_entry x es c)).
Qed.

Lemma dirs_listable_entry x es c :
  dirs_listable (Dir es) = true -> find_entry x es = Some c ->
  dirs_listable c = true.
Proof.
  cbn [dirs_listable]. induction es as [|[k c0] r IH]; simpl; [discriminate|].
  intros H. apply andb_true_iff in H. destruct H as [H1 H2].
  destruct (String.eqb k x).
  - now intros [= <-].
  - now apply IH.
Qed.

Lemma dirs_listable_resolve p : forall n,
  dirs_listable n = true -> is_dir n p = true -> listable n p = true.
Proof.
  unfold is_dir, listable.
  induction p as [|x q IH]; intros n Hn H.
  - simpl in *. now destruct n.
  - simpl in *. destruct n as [d m | es | es]; try discriminate.
    destruct (find_entry x es) as [c|] eqn:E; [|discriminate].
    apply (IH c); [|exact H]. now apply (dirs_listable_entry x es c).
Qed.

Lemma prefix_length (p q : path) : prefix p q -> List.length p <= List.length q.
Proof. intros [r ->]. rewrite length_app. lia. Qed.

Lemma not_prefix_dirname (p : path) : p <> [] -> ~ prefix p (dirname p).
Proof.
  intros Hp H. destruct (path_snoc_cases p) as [-> | [q [x ->]]]; [tauto|].
  rewrite dirname_snoc in H. apply prefix_length in H.
  rewrite length_app in H. simpl in H. lia.
Qed.

Lemma option_eq_dec_path (a b : option path) : {a = b} + {a <> b}.
Proof. decide equality. apply (list_eq_dec string_dec). Qed.

(** A regular file found after a write elsewhere was there before. *)
Lemma store_file_others_inv n q d m n' p d0 m0 :
  store n q (File d m) = Some n' -> p <> q ->
  resolve n' p = inr (File d0 m0) -> resolve n p = inr (File d0 m0).
Proof.
  intros Hs Hpq Hp. destruct (path_cases p q) as [H1 H2 | -> | x r -> | x r ->].
  - now rewrite <- (store_apart _ _ _ _ _ Hs H2 H1).
  - congruence.
  - apply store_above in Hs. destruct Hs as [_ Hs]. unfold is_dir in Hs.
    rewrite Hp in Hs. discriminate.
  - rewrite (resolve_below_file _ _ d m x r (store_same _ _ _ _ Hs)) in Hp.
    discriminate.
Qed.

(** Writing a regular file makes no directory. *)
Lemma store_file_dirs_inv n q d m n' p :
  store n q (File d m) = Some n' -> is_dir n' p = true -> is_dir n p = true.
Proof.
  intros Hs Hp. destruct (path_cases p q) as [H1 H2 | -> | x r -> | x r ->].
  - unfold is_dir in *. now rewrite <- (store_apart _ _ _ _ _ Hs H2 H1).
  - unfold is_dir in Hp. now rewrite (store_same _ _ _ _ Hs) in Hp.
  - now apply store_above in Hs.
  - unfold is_dir in Hp.
    rewrite (resolve_below_file _ _ d m x r (store_same _ _ _ _ Hs)) in Hp.
    discriminate.
Qed.

(** * Effects of the library calls *)

Lemma grows_refl t w : grows t w w.
Proof. split; auto. Qed.

Lemma grows_trans t w1 w2 w3 : grows t w1 w2 -> grows t w2 w3 -> grows t w1 w3.
Proof.
  intros [A1 A2 A3 A4 A5] [B1 B2 B3 B4 B5]. split; intros.
  - congruence.
  - rewrite B2, A2; auto.
  - auto.
  - auto.
  - auto.
Qed.

Lemma grows_weaken t t' w w' : prefix t t' -> grows t w w' -> grows t' w w'.
Proof.
  intros Ht [A1 A2 A3 A4 A5]. split; auto.
  intros p Hp. apply A2. intros Hpt. apply Hp. now apply prefix_trans with t.
Qed.

Ltac run_step :=
  match goal with
  | H : (_, _) = (_, _) |- _ => injection H as <- <-
  | H : context [match ?x with _ => _ end] |- _ => destruct x eqn:?
  end.

(** The step of [mkdir] that makes the directory. *)
Lemma mkdir_store_spec q w n' e :
  resolve (fs w) q = inl e ->
  is_dir (fs w) (dirname q) = true ->
  store (fs w) q (Dir []) = Some n' ->
  grows q w (set_fs w n') /\ is_dir n' q = true.
Proof.
  intros Eq Ed Es.
  assert (He : e = FileNotFoundError /\ q <> []).
  { destruct (path_snoc_cases q) as [-> | [q0 [x ->]]]; [discriminate|].
    rewrite dirname_snoc in Ed. apply is_dir_resolve in Ed.
    split; [|destruct q0; discriminate].
    destruct Ed as [es [Ed|Ed]]; rewrite resolve_app, Ed in Eq; simpl in Eq;
      destruct (find_entry x es); congruence. }
  destruct He as [-> Hq].
  assert (Hoff : forall p, ~ prefix p q -> resolve n' p = resolve (fs w) p).
  { intros p Hp. destruct (path_cases p q) as [H1 H2 | -> | x r -> | x r ->].
    - now apply store_apart with (p := p) in Es.
    - exfalso. apply Hp. exists []. now rewrite app_nil_r.
    - exfalso. apply Hp. now exists (x :: r).
    - rewrite (resolve_below_missing _ _ _ _ Eq).
      rewrite resolve_app, (store_same _ _ _ _ Es). reflexivity. }
  assert (Hup : forall p x r, q = p ++ x :: r -> is_dir n' p = true).
  { intros p x r ->. now apply store_above in Es. }
  split; [split|]; simpl; auto.
  - intros p Hp. destruct (is_prefix p q) eqn:E.
    + apply is_prefix_spec in E. destruct E as [[|x r] Hr].
      * rewrite app_nil_r in Hr. subst p. unfold is_dir in Hp.
        rewrite Eq in Hp. discriminate.
      * eauto.
    + apply is_prefix_false in E. unfold is_dir. now rewrite Hoff.
  - intros p d m Hp. destruct (is_prefix p q) eqn:E.
    + apply is_prefix_spec in E. destruct E as [[|x r] Hr].
      * rewrite app_nil_r in Hr. subst p. congruence.
      * subst q. apply store_above in Es. destruct Es as [Es _].
        unfold is_dir in Es. rewrite Hp in Es. discriminate.
    + apply is_prefix_false in E. now rewrite Hoff.
  - intros p d m Hp. destruct (is_prefix p q) eqn:E.
    + apply is_prefix_spec in E. destruct E as [[|x r] Hr].
      * rewrite app_nil_r in Hr. subst p.
        rewrite (store_same _ _ _ _ Es) in Hp. discriminate.
      * apply Hup in Hr. unfold is_dir in Hr. rewrite Hp in Hr. discriminate.
    + apply is_prefix_false in E. now rewrite <- Hoff.
  - unfold is_dir. now rewrite (store_same _ _ _ _ Es).
Qed.

Lemma mkdir_spec q w w' res :
  os.mkdir q w = (w', res) ->
  grows q w w' /\ (res = Returned tt -> is_dir (fs w') q = true)
  /\ (res <> Returned tt -> w' = w).
Proof.
  unfold os.mkdir. intros H.
  destruct (resolve (fs w) q) as [e | a] eqn:Eq.
  2:{ injection H as <- <-. split; [apply grows_refl | split; congruence]. }
  destruct (is_dir (fs w) (dirname q)) eqn:Ed.
  - unfold is_dir in Ed.
    assert (H' : match store (fs w) q (Dir []) with
                 | Some n' => (set_fs w n', Returned tt)
                 | None => (w, Raised FileNotFoundError)
                 end = (w', res)).
    { destruct (resolve (fs w) (dirname q)) as [e' | [d m | es | es]];
        try discriminate; exact H. }
    clear H. destruct (store (fs w) q (Dir [])) as [n'|] eqn:Es.
    + injection H' as <- <-.
      destruct (mkdir_store_spec q w n' e Eq Ed Es) as [Hg Hd].
      split; [exact Hg | split; [auto | congruence]].
    + injection H' as <- <-. split; [apply grows_refl | split; congruence].
  - unfold is_dir in Ed.
    destruct (resolve (fs w) (dirname q)) as [e' | [d m | es | es]];
      try discriminate;
      (injection H as <- <-; split; [apply grows_refl | split; congruence]).
Qed.

(** The part of [makedirs] that runs before the final [mkdir]. *)
Lemma makedirs_head_spec k name w w1 r1 :
  (forall name w w' res,
      os.makedirs_from k name w = (w', res) ->
      grows name w w' /\ res <> OutOfFuel) ->
  match dirname name with
  | [] => ret tt
  | _ :: _ =>
      e <- os.exists_ (dirname name) ;;
      if e then ret tt
      else except_FileExistsError (os.makedirs_from k (dirname name))
  end w = (w1, r1) ->
  grows name w w1 /\ r1 <> OutOfFuel.
Proof.
  intros IH H1. destruct (dirname name) as [|y t] eqn:Ed.
  - injection H1 as <- <-. split; [apply grows_refl | discriminate].
  - unfold bind, os.exists_ in H1.
    destruct (path_exists (fs w) (y :: t)).
    + injection H1 as <- <-. split; [apply grows_refl | discriminate].
    + unfold except_FileExistsError in H1.
      destruct (os.makedirs_from k (y :: t) w) as [w2 r2] eqn:E2.
      apply IH in E2. destruct E2 as [E2 E3].
      assert (w1 = w2 /\ r1 <> OutOfFuel) as [-> Hr].
      { destruct r2 as [[]|[]|]; split; congruence. }
      split; [|exact Hr].
      apply grows_weaken with (y :: t); [|exact E2].
      rewrite <- Ed. apply dirname_prefix.
Qed.

Lemma makedirs_from_spec k name w w' res :
  os.makedirs_from k name w = (w', res) ->
  grows name w w' /\ res <> OutOfFuel /\
  (res = Returned tt -> is_dir (fs w') name = true).
Proof.
  revert name w w' res. induction k as [|k IH]; intros name w w' res H.
  - simpl in H. pose proof H as H'. apply mkdir_spec in H.
    split; [tauto | split; [|tauto]].
    unfold os.mkdir in H'. repeat run_step; discriminate.
  - cbn [os.makedirs_from] in H. unfold bind at 1 in H.
    match type of H with
    | match ?pre with _ => _ end = _ => destruct pre as [w1 r1] eqn:E1
    end.
    apply makedirs_head_spec in E1.
    2:{ intros name0 w0 w0' res0 H0. apply IH in H0. tauto. }
    destruct E1 as [Hpre Hr1].
    destruct r1 as [[]|e|]; [| |congruence].
    + pose proof H as H'. apply mkdir_spec in H. destruct H as [Hg [Hd _]].
      split; [now apply grows_trans with w1 | split; [|exact Hd]].
      unfold os.mkdir in H'. repeat run_step; discriminate.
    + injection H as <- <-. split; [exact Hpre | split; discriminate].
Qed.

Lemma makedirs_spec name w w' res :
  os.makedirs name w = (w', res) ->
  grows name w w' /\ res <> OutOfFuel /\
  (res = Returned tt -> is_dir (fs w') name = true).
Proof. apply makedirs_from_spec. Qed.

Lemma copy2_spec src dst w w' res :
  shutil.copy2 src dst w = (w', res) ->
  queried w' = queried w /\ res <> OutOfFuel /\
  (res <> Returned tt -> w' = w) /\
  (res = Returned tt ->
   exists data meta,
     resolve (fs w) src = inr (File data meta) /\
     store (fs w) (shutil.copy2_target (fs w) src dst) (File data meta) = Some (fs w') /\
     is_dir (fs w) (shutil.copy2_target (fs w) src dst) = false /\
     is_dir (fs w) (dirname (shutil.copy2_target (fs w) src dst)) = true /\
     src <> shutil.copy2_target (fs w) src dst).
Proof.
  unfold shutil.copy2. cbv zeta.
  generalize (shutil.copy2_target (fs w) src dst) as t. intros t H.
  destruct (path_eqb src t && path_exists (fs w) src) eqn:Esame.
  { injection H as <- <-. repeat split; congruence. }
  destruct (resolve (fs w) src) as [e | [data meta | es | es]] eqn:Esrc.
  1,3,4: injection H as <- <-; repeat split; congruence.
  assert (Hne : src <> t).
  { intros ->. unfold path_exists in Esame. rewrite Esrc in Esame.
    rewrite (proj2 (path_eqb_spec t t) eq_refl) in Esame. discriminate. }
  assert (Hfail : forall e, (w, @Raised unit e) = (w', res) ->
    queried w' = queried w /\ res <> OutOfFuel /\ (res <> Returned tt -> w' = w) /\
    (res = Returned tt -> exists data0 meta0,
       inr (File data meta) = @inr error node (File data0 meta0) /\
       store (fs w) t (File data0 meta0) = Some (fs w') /\
       is_dir (fs w) t = false /\ is_dir (fs w) (dirname t) = true /\ src <> t)).
  { intros e [= <- <-]. repeat split; congruence. }
  assert (Hgo :
    (if shutil.read_only (fs w) t then (w, Raised PermissionError)
     else
       match resolve (fs w) (dirname t) with
       | inl e => (w, Raised e)
       | inr (File _ _) => (w, Raised NotADirectoryError)
       | inr (Dir _) | inr (Locked _) =>
           match store (fs w) t (File data meta) with
           | Some n' => (set_fs w n', Returned tt)
           | None => (w, Raised FileNotFoundError)
           end
       end) = (w', res) -> is_dir (fs w) t = false ->
    queried w' = queried w /\ res <> OutOfFuel /\ (res <> Returned tt -> w' = w) /\
    (res = Returned tt -> exists data0 meta0,
       inr (File data meta) = @inr error node (File data0 meta0) /\
       store (fs w) t (File data0 meta0) = Some (fs w') /\
       is_dir (fs w) t = false /\ is_dir (fs w) (dirname t) = true /\ src <> t)).
  { intros H' Ht. destruct (shutil.read_only (fs w) t); eauto.
    destruct (resolve (fs w) (dirname t)) as [e | [d0 m0 | es | es]] eqn:Ed;
      eauto;
      (destruct (store (fs w) t (File data meta)) as [n'|] eqn:Es; eauto;
       injection H' as <- <-; repeat split; try congruence;
       intros _; exists data, meta; repeat split; auto;
       unfold is_dir; now rewrite Ed). }
  destruct (resolve (fs w) t) as [[] | [d1 m1 | es1 | es1]] eqn:Et; eauto;
    apply Hgo; auto; unfold is_dir; now rewrite Et.
Qed.

Lemma touches_refl T n : touches T n n.
Proof. split; eauto. Qed.

Lemma touches_trans T n1 n2 n3 : touches T n1 n2 -> touches T n2 n3 -> touches T n1 n3.
Proof.
  intros [A1 A2 A3 A4] [B1 B2 B3 B4]. split; intros.
  - rewrite B1, A1; auto.
  - auto.
  - destruct (A3 _ _ _ H) as [d' [m' H']]. eauto.
  - eauto.
Qed.

Lemma touches_weaken T T' n n' : prefix T T' -> touches T' n n' -> touches T n n'.
Proof.
  intros HT [A1 A2 A3 A4]. split; auto.
  - intros p H1 H2. apply A1.
    + intros H. apply H1. now apply prefix_trans with T'.
    + intros H. destruct (prefix_same_path p T T') as [H3|H3]; auto.
  - intros p d m Hp H1. apply (A4 _ _ _ Hp).
    intros H. apply H1. now apply prefix_trans with T'.
Qed.

Lemma grows_touches t T w w' : grows t w w' -> prefix t T -> touches T (fs w) (fs w').
Proof.
  intros [A1 A2 A3 A4 A5] Ht. split; eauto.
  intros p H1 H2. apply A2. intros H. apply H2. now apply prefix_trans with t.
Qed.

Lemma store_file_touches T n q d m n' :
  store n q (File d m) = Some n' -> is_dir n q = false -> prefix T q ->
  touches T n n'.
Proof.
  intros Hs Hq HT. split.
  - intros p H1 H2. apply (store_apart _ _ _ _ _ Hs).
    + intros H. apply H1. now apply prefix_trans with q.
    + intros H. destruct (prefix_same_path p T q) as [H3|H3]; auto.
  - intros p. now apply store_file_dirs with q d m.
  - intros p d0 m0 Hp. destruct (list_eq_dec string_dec p q) as [-> | Hne].
    + exists d, m. now apply store_same with n.
    + exists d0, m0. now apply store_file_others with n q d m.
  - intros p d0 m0 Hp H1. apply store_file_others with n q d m; auto.
    intros ->. tauto.
Qed.

Lemma for_each_app {A} (xs ys : list A) body w :
  for_each (xs ++ ys) body w = (for_each xs body ;;; for_each ys body) w.
Proof.
  revert w. induction xs as [|x xs IH]; intros w; simpl.
  - reflexivity.
  - unfold bind in *. destruct (body x w) as [w1 [[]|e|]]; auto.
Qed.

(** A relation that every round of a loop respects holds of the loop. *)
Lemma for_each_rel {A} (P : world -> world -> Prop) (xs : list A) body :
  (forall w, P w w) -> (forall w1 w2 w3, P w1 w2 -> P w2 w3 -> P w1 w3) ->
  (forall x w w' r, In x xs -> body x w = (w', r) -> P w w') ->
  forall w w' res, for_each xs body w = (w', res) -> P w w'.
Proof.
  intros Hrefl Htrans. induction xs as [|x xs IH]; intros Hbody w w' res H.
  - injection H as <- <-. apply Hrefl.
  - simpl in H. unfold bind in H. destruct (body x w) as [w1 r1] eqn:E1.
    assert (P w w1) by (eapply Hbody; [now left | exact E1]).
    destruct r1 as [[]|e|].
    + apply Htrans with w1; auto. eapply IH; eauto.
      intros. eapply Hbody; eauto. now right.
    + now injection H as <- <-.
    + now injection H as <- <-.
Qed.

(** * The copier, one level of the recursion at a time *)

Section Copier.

Variables sourceBase targetBase : path.
Variable gitignore : path -> bool.

Local Abbreviation copy_leaf := (copy_leaf sourceBase targetBase gitignore).
Local Abbreviation visit := (visit sourceBase targetBase gitignore).
Local Abbreviation walk := (walk sourceBase).
Local Abbreviation item_step := (item_step sourceBase targetBase gitignore).
Local Abbreviation run_items := (run_items sourceBase targetBase gitignore).
Local Abbreviation separate := (separate sourceBase targetBase).
Local Abbreviation leaf := (leaf sourceBase).
Local Abbreviation stopped := (stopped sourceBase).

Lemma copy_unfold fuel relative w :
  copyNotGitignoreTree (S fuel) sourceBase targetBase relative gitignore w =
  if listable (fs w) (sourceBase ++ relative)
  then for_each (children (fs w) (sourceBase ++ relative))
         (fun child =>
            copyNotGitignoreTree fuel sourceBase targetBase
              (relative ++ [child]) gitignore) w
  else visit relative w.
Proof.
  cbn [copyNotGitignoreTree]. unfold bind at 1, os.isdir at 1.
  unfold visit, listable, is_dir.
  destruct (resolve (fs w) (sourceBase ++ relative)) as [e | [d m | es | es]] eqn:E;
    try reflexivity.
  - unfold bind, os.listdir, children. now rewrite E.
  - unfold bind, os.listdir. now rewrite E.
Qed.

Lemma visit_leaf relative w :
  is_dir (fs w) (sourceBase ++ relative) = false ->
  visit relative w = copy_leaf relative w.
Proof. intros H. unfold visit. now rewrite H. Qed.

Lemma visit_locked relative w :
  is_dir (fs w) (sourceBase ++ relative) = true ->
  visit relative w = (w, Raised PermissionError).
Proof. intros H. unfold visit. now rewrite H. Qed.

(** The three cases of a call: an entry that is no directory, a
    directory that is listed, and a directory that cannot be listed. *)
Lemma copy_unfold_leaf fuel relative w :
  is_dir (fs w) (sourceBase ++ relative) = false ->
  copyNotGitignoreTree (S fuel) sourceBase targetBase relative gitignore w =
  copy_leaf relative w.
Proof.
  intros H. rewrite copy_unfold, (not_dir_not_listable _ _ H).
  now apply visit_leaf.
Qed.

Lemma copy_unfold_dir fuel relative w :
  listable (fs w) (sourceBase ++ relative) = true ->
  copyNotGitignoreTree (S fuel) sourceBase targetBase relative gitignore w =
  for_each (children (fs w) (sourceBase ++ relative))
    (fun child =>
       copyNotGitignoreTree fuel sourceBase targetBase (relative ++ [child])
         gitignore) w.
Proof. intros H. now rewrite copy_unfold, H. Qed.

Lemma copy_unfold_locked fuel relative w :
  is_dir (fs w) (sourceBase ++ relative) = true ->
  listable (fs w) (sourceBase ++ relative) = false ->
  copyNotGitignoreTree (S fuel) sourceBase targetBase relative gitignore w =
  (w, Raised PermissionError).
Proof. intros H1 H2. rewrite copy_unfold, H2. now apply visit_locked. Qed.

(** The leaf step, case by case. *)
Lemma copy_leaf_ignored relative w :
  gitignore relative = true ->
  copy_leaf relative w = (asked w relative, Returned tt).
Proof. intros H. unfold copy_leaf, bind, call. now rewrite H. Qed.

Lemma copy_leaf_copied relative w :
  gitignore relative = false ->
  copy_leaf relative w =
  ((if negb (is_dir (fs w) (dirname (targetBase ++ relative)))
    then os.makedirs (dirname (targetBase ++ relative)) else ret tt) ;;;
   shutil.copy2 (sourceBase ++ relative) (targetBase ++ relative))
    (asked w relative).
Proof. intros H. unfold copy_leaf, bind at 1, call. now rewrite H. Qed.

Lemma copy_leaf_spec relative w w' res :
  copy_leaf relative w = (w', res) ->
  queried w' = queried w ++ [relative] /\ res <> OutOfFuel /\
  touches (targetBase ++ relative) (fs w) (fs w').
Proof.
  intros H. destruct (gitignore relative) eqn:Eg.
  - rewrite copy_leaf_ignored in H by assumption. injection H as <- <-.
    repeat split; try discriminate; eauto.
  - rewrite copy_leaf_copied in H by assumption. unfold bind in H.
    match type of H with
    | match ?pre with _ => _ end = _ => destruct pre as [w1 r1] eqn:E1
    end.
    assert (Hpre : grows (dirname (targetBase ++ relative)) (asked w relative) w1
                   /\ r1 <> OutOfFuel).
    { simpl in E1.
      destruct (negb (is_dir (fs w) (dirname (targetBase ++ relative)))).
      - apply makedirs_spec in E1. tauto.
      - injection E1 as <- <-. split; [apply grows_refl | discriminate]. }
    destruct Hpre as [Hg Hr1].
    pose proof (grows_touches _ (targetBase ++ relative) _ _ Hg
                  (dirname_prefix _)) as Ht. simpl in Ht.
    destruct Hg as [Hlog _ _ _ _]. simpl in Hlog.
    destruct r1 as [[]|e|]; [| |congruence].
    + apply copy2_spec in H. destruct H as [Hq [Hr [Hsame Hok]]].
      split; [congruence | split; [exact Hr|]].
      destruct res as [[]|e|]; [| |congruence].
      * destruct (Hok eq_refl) as [data [meta [_ [Hs [Hd _]]]]].
        apply touches_trans with (fs w1); [exact Ht|].
        apply store_file_touches with (2 := Hd) (1 := Hs).
        unfold shutil.copy2_target.
        destruct (is_dir (fs w1) (targetBase ++ relative)).
        -- now exists [basename (sourceBase ++ relative)].
        -- exists []. now rewrite app_nil_r.
      * rewrite Hsame by discriminate. exact Ht.
    + injection H as <- <-. split; [exact Hlog | split; [discriminate | exact Ht]].
Qed.

Lemma visit_spec relative w w' res :
  visit relative w = (w', res) ->
  res <> OutOfFuel /\ touches (targetBase ++ relative) (fs w) (fs w') /\
  ((is_dir (fs w) (sourceBase ++ relative) = false /\
    copy_leaf relative w = (w', res)) \/
   (is_dir (fs w) (sourceBase ++ relative) = true /\
    w' = w /\ res = Raised PermissionError)).
Proof.
  unfold visit. destruct (is_dir (fs w) (sourceBase ++ relative)) eqn:Ed; intros H.
  - injection H as <- <-. split; [discriminate|]. split; [apply touches_refl|].
    right. auto.
  - pose proof (copy_leaf_spec _ _ _ _ H) as [_ [Hr Ht]]. auto.
Qed.

(** The whole copy only touches the destination entry. *)
Lemma copy_touches fuel relative w w' res :
  copyNotGitignoreTree fuel sourceBase targetBase relative gitignore w = (w', res) ->
  touches (targetBase ++ relative) (fs w) (fs w').
Proof.
  revert relative w w' res. induction fuel as [|fuel IH]; intros relative w w' res H.
  - injection H as <- <-. apply touches_refl.
  - rewrite copy_unfold in H.
    destruct (listable (fs w) (sourceBase ++ relative)).
    + revert H. apply for_each_rel
        with (P := fun w w' => touches (targetBase ++ relative) (fs w) (fs w')).
      * intros. apply touches_refl.
      * intros w1 w2 w3. apply touches_trans.
      * intros c w1 w2 r _ Hc. apply IH in Hc.
        apply touches_weaken with (2 := Hc).
        exists [c]. now rewrite app_assoc.
    + now apply visit_spec in H.
Qed.

(** *** What a call may add *)

Lemma creates_refl relative w :
  creates sourceBase targetBase gitignore relative w w.
Proof.
  exists []. rewrite app_nil_r.
  split; [reflexivity | split; [intros r [] | split; intros; now left]].
Qed.

Lemma creates_trans relative w1 w2 w3 :
  creates sourceBase targetBase gitignore relative w1 w2 ->
  creates sourceBase targetBase gitignore relative w2 w3 ->
  creates sourceBase targetBase gitignore relative w1 w3.
Proof.
  intros [qs1 [L1 [P1 [D1 F1]]]] [qs2 [L2 [P2 [D2 F2]]]].
  exists (qs1 ++ qs2). split; [now rewrite L2, L1, app_assoc|].
  split; [|split].
  - intros r Hr. apply in_app_or in Hr. destruct Hr; auto.
  - intros p Hp. destruct (D2 p Hp) as [H | [r [Hr H]]].
    + destruct (D1 p H) as [H1 | [r [Hr H1]]]; [now left | right].
      exists r. split; [apply in_or_app; now left | exact H1].
    + right. exists r. split; [apply in_or_app; now right | exact H].
  - intros p d m Hp. destruct (F2 p d m Hp) as [H | [r [Hr H]]].
    + destruct (F1 p d m H) as [H1 | [r [Hr H1]]]; [now left | right].
      exists r. split; [apply in_or_app; now left | exact H1].
    + right. exists r. split; [apply in_or_app; now right | exact H].
Qed.

Lemma creates_weaken relative c w w' :
  creates sourceBase targetBase gitignore (relative ++ [c]) w w' ->
  creates sourceBase targetBase gitignore relative w w'.
Proof.
  intros [qs [L [P [D F]]]]. exists qs. split; [exact L | split; [|now split]].
  intros r Hr. apply prefix_trans with (relative ++ [c]); [now exists [c] | auto].
Qed.

Lemma copy_leaf_creates relative w w' res :
  copy_leaf relative w = (w', res) ->
  creates sourceBase targetBase gitignore relative w w'.
Proof.
  intros H. exists [relative].
  pose proof (copy_leaf_spec _ _ _ _ H) as [Hlog _].
  split; [exact Hlog|]. split.
  { intros r [<-|[]]. exists []. now rewrite app_nil_r. }
  destruct (gitignore relative) eqn:Eg.
  { rewrite copy_leaf_ignored in H by assumption. injection H as <- <-.
    simpl. split; intros; now left. }
  rewrite copy_leaf_copied in H by assumption. unfold bind in H.
  match type of H with
  | match ?pre with _ => _ end = _ => destruct pre as [w1 r1] eqn:E1
  end.
  assert (Hpre : grows (dirname (targetBase ++ relative)) (asked w relative) w1).
  { simpl in E1.
    destruct (negb (is_dir (fs w) (dirname (targetBase ++ relative)))).
    - apply makedirs_spec in E1. tauto.
    - injection E1 as <- <-. apply grows_refl. }
  assert (Hd1 : forall p,
    is_dir (fs w1) p = true ->
    is_dir (fs w) p = true \/ prefix p (dirname (targetBase ++ relative))).
  { intros p Hp. destruct (is_prefix p (dirname (targetBase ++ relative))) eqn:E.
    - right. now apply is_prefix_spec.
    - left. apply is_prefix_false in E.
      pose proof (grows_off _ _ _ Hpre p E) as Hoff. simpl in Hoff.
      unfold is_dir in *. now rewrite <- Hoff. }
  assert (Hf1 : forall p d m,
    resolve (fs w1) p = inr (File d m) -> resolve (fs w) p = inr (File d m)).
  { intros p d m Hp. exact (grows_old _ _ _ Hpre p d m Hp). }
  assert (Hstep :
    (forall p, is_dir (fs w') p = true -> is_dir (fs w1) p = true) /\
    (forall p d m,
        resolve (fs w') p = inr (File d m) ->
        resolve (fs w1) p = inr (File d m) \/
        p = targetBase ++ relative \/
        p = (targetBase ++ relative) ++ [basename (sourceBase ++ relative)])).
  { destruct r1 as [[]|e|]; [| injection H as <- <-; split; auto ..].
    apply copy2_spec in H. destruct H as [_ [_ [Hsame Hok]]].
    destruct res as [[]|e|]; [| rewrite Hsame by discriminate; split; auto ..].
    destruct (Hok eq_refl) as [data [meta [_ [Hs _]]]]. split.
    - intros p. apply (store_file_dirs_inv _ _ _ _ _ p Hs).
    - intros p d m Hp.
      destruct (list_eq_dec string_dec p
                  (shutil.copy2_target (fs w1) (sourceBase ++ relative)
                     (targetBase ++ relative))) as [-> | Hne].
      + right. unfold shutil.copy2_target.
        destruct (is_dir (fs w1) (targetBase ++ relative)); auto.
      + left. exact (store_file_others_inv _ _ _ _ _ p d m Hs Hne Hp). }
  destruct Hstep as [S1 S2]. split.
  - intros p Hp. destruct (Hd1 p (S1 p Hp)) as [Hk | Hn]; [now left | right].
    exists relative. split; [now left | now split].
  - intros p d m Hp. destruct (S2 p d m Hp) as [Hk | Hn]; [left; now apply Hf1|].
    right. exists relative. split; [now left | now split].
Qed.

Lemma copy_creates fuel relative w w' res :
  copyNotGitignoreTree fuel sourceBase targetBase relative gitignore w = (w', res) ->
  creates sourceBase targetBase gitignore relative w w'.
Proof.
  revert relative w w' res. induction fuel as [|fuel IH]; intros relative w w' res H.
  - injection H as <- <-. apply creates_refl.
  - rewrite copy_unfold in H.
    destruct (listable (fs w) (sourceBase ++ relative)).
    + revert H. apply for_each_rel
        with (P := creates sourceBase targetBase gitignore relative).
      * intros. apply creates_refl.
      * intros w1 w2 w3. apply creates_trans.
      * intros c w1 w2 r _ Hc. apply IH in Hc. now apply creates_weaken with c.
    + apply visit_spec in H. destruct H as [_ [_ [[_ H] | [_ [-> _]]]]].
      * now apply copy_leaf_creates in H.
      * apply creates_refl.
Qed.

(** The matcher is called on paths that were no directories of the
    source when the call began; nothing is needed for this but that
    directories stay. *)
Lemma copy_asks_leaves fuel relative w w' res :
  copyNotGitignoreTree fuel sourceBase targetBase relative gitignore w = (w', res) ->
  exists qs,
    queried w' = queried w ++ qs /\
    forall r, In r qs -> is_dir (fs w) (sourceBase ++ r) = false.
Proof.
  intros H.
  cut ((forall p, is_dir (fs w) p = true -> is_dir (fs w') p = true) /\
       exists qs,
         queried w' = queried w ++ qs /\
         forall r, In r qs -> is_dir (fs w) (sourceBase ++ r) = false);
    [tauto|].
  revert relative w w' res H.
  induction fuel as [|fuel IH]; intros relative w w' res H.
  - injection H as <- <-. split; [auto|]. exists []. rewrite app_nil_r.
    split; [reflexivity | intros r []].
  - rewrite copy_unfold in H.
    destruct (listable (fs w) (sourceBase ++ relative)).
    + refine (for_each_rel
                (fun w1 w2 =>
                   (forall p, is_dir (fs w1) p = true -> is_dir (fs w2) p = true) /\
                   exists qs,
                     queried w2 = queried w1 ++ qs /\
                     forall r, In r qs -> is_dir (fs w1) (sourceBase ++ r) = false)
                _ _ _ _ _ w w' res H).
      * intros w0. split; [auto|]. exists []. rewrite app_nil_r.
        split; [reflexivity | intros r []].
      * intros w1 w2 w3 [D1 [qs1 [L1 A1]]] [D2 [qs2 [L2 A2]]].
        split; [auto|]. exists (qs1 ++ qs2).
        split; [now rewrite L2, L1, app_assoc|].
        intros r Hr. apply in_app_or in Hr. destruct Hr as [Hr | Hr]; [auto|].
        destruct (is_dir (fs w1) (sourceBase ++ r)) eqn:E; [|reflexivity].
        apply D1 in E. rewrite (A2 r Hr) in E. discriminate.
      * intros c w1 w2 r _ Hc. now apply IH in Hc.
    + apply visit_spec in H. destruct H as [_ [Ht [[Hd H] | [_ [-> _]]]]].
      * split; [exact (t_dirs _ _ _ Ht)|].
        apply copy_leaf_spec in H. destruct H as [Hlog _].
        exists [relative]. split; [exact Hlog|].
        now intros r [<- | []].
      * split; [auto|]. exists []. rewrite app_nil_r.
        split; [reflexivity | intros r []].
Qed.

Lemma run_items_one relative w : run_items [Some relative] w = visit relative w.
Proof.
  unfold run_items. simpl. unfold bind, ret.
  now destruct (visit relative w) as [w1 [[]|e|]].
Qed.

Lemma walk_ext fuel n1 n2 relative :
  resolve n1 (sourceBase ++ relative) = resolve n2 (sourceBase ++ relative) ->
  walk fuel n1 relative = walk fuel n2 relative.
Proof.
  revert relative. induction fuel as [|fuel IH]; intros relative H; cbn [walk].
  - reflexivity.
  - unfold listable, children. rewrite H.
    destruct (resolve n2 (sourceBase ++ relative)) as [e | [d m | es | es]] eqn:E2;
      auto.
    apply flat_map_ext. intros c. apply IH.
    rewrite !app_assoc.
    now rewrite (resolve_app n1 (sourceBase ++ relative)),
      (resolve_app n2 (sourceBase ++ relative)), H, E2.
Qed.

Lemma separate_child relative c : separate relative -> separate (relative ++ [c]).
Proof. unfold separate. rewrite !app_assoc. apply comparable_app. Qed.

(** A copy of a separate entry leaves the source entry as it is. *)
Lemma touches_source relative u n n' :
  separate relative ->
  touches (targetBase ++ relative ++ u) n n' ->
  resolve n' (sourceBase ++ relative) = resolve n (sourceBase ++ relative).
Proof.
  intros Hsep Ht.
  assert (H : comparable (sourceBase ++ relative) (targetBase ++ relative ++ u) = false).
  { rewrite <- (app_nil_r (sourceBase ++ relative)), app_assoc.
    now apply comparable_app. }
  apply comparable_false in H. destruct H as [H1 H2].
  now apply (t_apart _ _ _ Ht).
Qed.

Lemma copy_source fuel relative w w' res :
  separate relative ->
  copyNotGitignoreTree fuel sourceBase targetBase relative gitignore w = (w', res) ->
  resolve (fs w') (sourceBase ++ relative) = resolve (fs w) (sourceBase ++ relative).
Proof.
  intros Hsep H. apply copy_touches in H.
  apply touches_source with (u := []); [exact Hsep | now rewrite app_nil_r].
Qed.

(** One directory of the recursion, its children walked on the tree
    [n0] that the source entry had when the loop began. *)
Lemma copy_loop_is_walk fuel relative n0 cs :
  (forall relative w,
      separate relative ->
      copyNotGitignoreTree fuel sourceBase targetBase relative gitignore w =
      run_items (walk fuel (fs w) relative) w) ->
  separate relative ->
  forall w,
    resolve (fs w) (sourceBase ++ relative) = resolve n0 (sourceBase ++ relative) ->
    for_each cs
      (fun child =>
         copyNotGitignoreTree fuel sourceBase targetBase (relative ++ [child])
           gitignore) w =
    run_items (flat_map (fun child => walk fuel n0 (relative ++ [child])) cs) w.
Proof.
  intros IH Hsep. induction cs as [|c cs IHcs]; intros w Hn.
  - reflexivity.
  - cbn [flat_map for_each]. unfold run_items. rewrite for_each_app.
    fold (run_items (walk fuel n0 (relative ++ [c]))).
    fold (run_items (flat_map (fun child => walk fuel n0 (relative ++ [child])) cs)).
    rewrite <- (walk_ext fuel (fs w) n0 (relative ++ [c]))
      by (rewrite !app_assoc;
          now rewrite (resolve_app (fs w) (sourceBase ++ relative)),
            (resolve_app n0 (sourceBase ++ relative)), Hn).
    unfold bind.
    rewrite <- IH by (now apply separate_child).
    destruct (copyNotGitignoreTree fuel sourceBase targetBase
                (relative ++ [c]) gitignore w) as [w1 r1] eqn:E1.
    destruct r1 as [[]|e|]; auto.
    apply IHcs. rewrite <- Hn.
    apply copy_touches in E1.
    now apply touches_source with (u := [c]).
Qed.

(** With source and destination separate, the copier is the leaf step
    run over the walk of the initial tree. *)
Lemma copy_is_walk fuel : forall relative w,
  separate relative ->
  copyNotGitignoreTree fuel sourceBase targetBase relative gitignore w =
  run_items (walk fuel (fs w) relative) w.
Proof.
  induction fuel as [|fuel IH]; intros relative w Hsep.
  - reflexivity.
  - rewrite copy_unfold. cbn [walk].
    destruct (listable (fs w) (sourceBase ++ relative));
      [|now rewrite run_items_one].
    now apply copy_loop_is_walk.
Qed.

(** ** What the walk lists *)

Lemma leaf_here n relative :
  listable n (sourceBase ++ relative) = false -> leaf n relative relative.
Proof.
  intros H. exists []. rewrite app_nil_r. repeat split; auto.
  intros [|y u1] x u2; discriminate.
Qed.

Lemma leaf_child n relative c r :
  listable n (sourceBase ++ relative) = true ->
  leaf n (relative ++ [c]) r -> leaf n relative r.
Proof.
  intros Hd [u [-> [H1 H2]]]. exists (c :: u).
  rewrite <- app_assoc in *. simpl in *. repeat split; auto.
  intros [|y u1] x u2 E.
  - now rewrite app_nil_r.
  - injection E as <- ->. specialize (H2 u1 x u2 eq_refl).
    now rewrite <- app_assoc in H2.
Qed.

Lemma walk_leaf fuel n : forall relative r,
  In (Some r) (walk fuel n relative) -> leaf n relative r.
Proof.
  induction fuel as [|fuel IH]; intros relative r H; cbn [walk] in H.
  - destruct H as [H|[]]. discriminate.
  - destruct (listable n (sourceBase ++ relative)) eqn:Ed.
    + apply in_flat_map in H. destruct H as [c [_ H]].
      apply leaf_child with c; auto.
    + destruct H as [[= <-]|[]]. now apply leaf_here.
Qed.

(** Below a directory the walk lists entries that exist. *)
Lemma walk_exists fuel n : forall relative r,
  listable n (sourceBase ++ relative) = true ->
  In (Some r) (walk fuel n relative) ->
  path_exists n (sourceBase ++ r) = true.
Proof.
  induction fuel as [|fuel IH]; intros relative r Hd H; cbn [walk] in H.
  - destruct H as [H|[]]. discriminate.
  - rewrite Hd in H. apply in_flat_map in H. destruct H as [c [Hc H]].
    destruct (listable n (sourceBase ++ relative ++ [c])) eqn:Ec.
    + apply (IH (relative ++ [c])); [exact Ec | exact H].
    + assert (Hr : r = relative ++ [c]).
      { destruct fuel as [|fuel]; cbn [walk] in H.
        - destruct H as [H|[]]. discriminate.
        - rewrite Ec in H. destruct H as [[= <-]|[]]. reflexivity. }
      subst r. unfold children in Hc. apply listable_resolve in Hd.
      destruct Hd as [es Hd]. rewrite Hd in Hc.
      apply In_find_entry in Hc. destruct Hc as [a Ha].
      unfold path_exists. rewrite app_assoc, resolve_app, Hd. simpl.
      now rewrite Ha.
Qed.

(** What the walk lists below a directory is a regular file or a
    directory that cannot be listed. *)
Lemma walk_file fuel n relative r :
  listable n (sourceBase ++ relative) = true ->
  In (Some r) (walk fuel n relative) ->
  is_dir n (sourceBase ++ r) = false ->
  exists d m, resolve n (sourceBase ++ r) = inr (File d m).
Proof.
  intros Hd H Hr. apply walk_exists in H; [|exact Hd].
  unfold path_exists in H. unfold is_dir in Hr.
  destruct (resolve n (sourceBase ++ r)) as [e | [d m | es | es]];
    try discriminate; eauto.
Qed.

(** No leaf lies above another. *)
Lemma leaf_antichain n relative r1 r2 :
  leaf n relative r1 -> leaf n relative r2 -> prefix r1 r2 -> r1 = r2.
Proof.
  intros [u1 [-> [H1 _]]] [u2 [-> [_ H2]]] [v Hv].
  rewrite <- app_assoc in Hv. apply app_inv_head in Hv. subst u2.
  destruct v as [|x v]; [now rewrite app_nil_r|].
  specialize (H2 u1 x v eq_refl). congruence.
Qed.

Lemma leaves_apart n relative r1 r2 :
  leaf n relative r1 -> leaf n relative r2 -> r1 <> r2 ->
  ~ prefix (targetBase ++ r1) (targetBase ++ r2) /\
  ~ prefix (targetBase ++ r2) (targetBase ++ r1).
Proof.
  intros L1 L2 Hne. split; intros [v Hv]; rewrite <- app_assoc in Hv;
    apply app_inv_head in Hv.
  - apply Hne. apply (leaf_antichain n relative); auto. now exists v.
  - apply Hne. symmetry. apply (leaf_antichain n relative); auto. now exists v.
Qed.

Lemma stopped_flat_map n (f : string -> list (option path)) cs c :
  In c cs -> stopped n (f c) -> stopped n (flat_map f cs).
Proof.
  intros Hc [H | [r [H Hr]]].
  - left. apply in_flat_map. eauto.
  - right. exists r. split; [|exact Hr]. apply in_flat_map. eauto.
Qed.

(** Every regular file below the entry is listed, unless the walk does
    not get through. *)
Lemma walk_complete fuel n : forall relative u d m,
  resolve n (sourceBase ++ relative ++ u) = inr (File d m) ->
  In (Some (relative ++ u)) (walk fuel n relative) \/
  stopped n (walk fuel n relative).
Proof.
  induction fuel as [|fuel IH]; intros relative u d m H; cbn [walk].
  - right. left. now left.
  - destruct (listable n (sourceBase ++ relative)) eqn:Ed.
    + destruct u as [|c u].
      * rewrite app_nil_r in H. unfold listable in Ed. rewrite H in Ed.
        discriminate.
      * assert (Hc : In c (children n (sourceBase ++ relative))).
        { unfold children. apply listable_resolve in Ed. destruct Ed as [es Ed].
          rewrite Ed. rewrite app_assoc, resolve_app, Ed in H. simpl in H.
          destruct (find_entry c es) eqn:Ef; [|discriminate].
          now apply find_entry_In in Ef. }
        specialize (IH (relative ++ [c]) u d m).
        rewrite <- !app_assoc in IH. simpl in IH.
        destruct (IH H) as [H1|H1].
        -- left. apply in_flat_map. exists c. split; auto.
        -- right. now apply stopped_flat_map with c.
    + destruct u as [|c u].
      * left. rewrite app_nil_r. now left.
      * right. right. exists relative. split; [now left|].
        rewrite app_assoc in H. now apply resolve_above_dir in H.
Qed.

Lemma walk_fuel fuel n : forall relative,
  source_height n (sourceBase ++ relative) < fuel ->
  ~ In None (walk fuel n relative).
Proof.
  induction fuel as [|fuel IH]; intros relative Hh; [lia|].
  cbn [walk]. destruct (listable n (sourceBase ++ relative)) eqn:Ed.
  - intros H. apply in_flat_map in H. destruct H as [c [Hc H]].
    apply (IH (relative ++ [c])); [|exact H].
    unfold children, source_height in *. apply listable_resolve in Ed.
    destruct Ed as [es Ed]. rewrite Ed in *.
    rewrite app_assoc, resolve_app, Ed. simpl.
    apply In_find_entry in Hc. destruct Hc as [c0 Hc]. rewrite Hc.
    apply height_entry in Hc. lia.
  - intros [H|[]]. discriminate.
Qed.

(** ** The leaf step on a separate entry *)

Lemma separate_target_nonempty r :
  comparable (sourceBase ++ r) (targetBase ++ r) = false -> targetBase ++ r <> [].
Proof.
  intros H E. rewrite E in H. apply comparable_false in H.
  destruct H as [_ H]. apply H. now exists (sourceBase ++ r).
Qed.

(** The state after the [makedirs] part of the leaf step. *)
Lemma copy_leaf_mid r w w1 r1 :
  comparable (sourceBase ++ r) (targetBase ++ r) = false ->
  (if negb (is_dir (fs w) (dirname (targetBase ++ r)))
   then os.makedirs (dirname (targetBase ++ r)) else ret tt) (asked w r) = (w1, r1) ->
  grows (dirname (targetBase ++ r)) (asked w r) w1 /\
  resolve (fs w1) (sourceBase ++ r) = resolve (fs w) (sourceBase ++ r) /\
  resolve (fs w1) (targetBase ++ r) = resolve (fs w) (targetBase ++ r) /\
  (r1 = Returned tt -> is_dir (fs w1) (dirname (targetBase ++ r)) = true) /\
  r1 <> OutOfFuel.
Proof.
  intros Hsep H.
  assert (Hg : grows (dirname (targetBase ++ r)) (asked w r) w1 /\
               (r1 = Returned tt -> is_dir (fs w1) (dirname (targetBase ++ r)) = true)
               /\ r1 <> OutOfFuel).
  { destruct (is_dir (fs w) (dirname (targetBase ++ r))) eqn:Ed; simpl in H.
    - injection H as <- <-. split; [apply grows_refl | split; [auto | discriminate]].
    - apply makedirs_spec in H. tauto. }
  destruct Hg as [Hg [Hd Hr]].
  split; [exact Hg | split; [|split; [|split; [exact Hd | exact Hr]]]].
  - apply (grows_off _ _ _ Hg). intros Hp.
    apply comparable_false in Hsep. destruct Hsep as [Hsep _]. apply Hsep.
    apply prefix_trans with (1 := Hp). apply dirname_prefix.
  - apply (grows_off _ _ _ Hg). apply not_prefix_dirname.
    now apply separate_target_nonempty.
Qed.

Lemma copy_leaf_done r w w1 :
  comparable (sourceBase ++ r) (targetBase ++ r) = false ->
  gitignore r = false ->
  copy_leaf r w = (w1, Returned tt) ->
  exists d m,
    resolve (fs w) (sourceBase ++ r) = inr (File d m) /\
    resolve (fs w1) (shutil.copy2_target (fs w) (sourceBase ++ r) (targetBase ++ r))
    = inr (File d m) /\
    is_dir (fs w)
      (shutil.copy2_target (fs w) (sourceBase ++ r) (targetBase ++ r)) = false /\
    is_dir (fs w1) (dirname (targetBase ++ r)) = true.
Proof.
  intros Hsep Hg H. rewrite copy_leaf_copied in H by assumption.
  unfold bind in H.
  match type of H with
  | match ?pre with _ => _ end = _ => destruct pre as [wm r1] eqn:E1
  end.
  apply copy_leaf_mid in E1; [|assumption].
  destruct E1 as [Hgr [Hsrc [Htgt [Hdir _]]]].
  destruct r1 as [[]|e|]; try discriminate.
  apply copy2_spec in H. destruct H as [_ [_ [_ H]]].
  destruct (H eq_refl) as [d [m [H1 [H2 [H3 [H4 H5]]]]]].
  assert (Et : shutil.copy2_target (fs wm) (sourceBase ++ r) (targetBase ++ r)
               = shutil.copy2_target (fs w) (sourceBase ++ r) (targetBase ++ r)).
  { unfold shutil.copy2_target, is_dir. now rewrite Htgt. }
  rewrite Et in *. exists d, m. repeat split.
  - congruence.
  - now apply store_same with (fs wm).
  - destruct (is_dir (fs w) _) eqn:E; [|reflexivity].
    apply (grows_dirs _ _ _ Hgr) in E. congruence.
  - apply store_file_dirs with (1 := H2); auto.
Qed.

(** Whatever the outcome, the leaf step changes a regular file only
    where [copy2] wrote. *)
Lemma copy_leaf_files r w w1 res p d0 m0 :
  comparable (sourceBase ++ r) (targetBase ++ r) = false ->
  copy_leaf r w = (w1, res) ->
  resolve (fs w) p = inr (File d0 m0) ->
  resolve (fs w1) p = inr (File d0 m0) \/
  (res = Returned tt /\ gitignore r = false /\
   p = shutil.copy2_target (fs w) (sourceBase ++ r) (targetBase ++ r)).
Proof.
  intros Hsep H Hp. destruct (gitignore r) eqn:Hg.
  { rewrite copy_leaf_ignored in H by assumption. injection H as <- <-. now left. }
  rewrite copy_leaf_copied in H by assumption. unfold bind in H.
  match type of H with
  | match ?pre with _ => _ end = _ => destruct pre as [wm r1] eqn:E1
  end.
  apply copy_leaf_mid in E1; [|assumption].
  destruct E1 as [Hgr [Hsrc [Htgt [Hdir _]]]].
  pose proof (grows_files _ _ _ Hgr _ _ _ Hp) as Hpm.
  destruct r1 as [[]|e|]; try (injection H as <- <-; now left).
  apply copy2_spec in H. destruct H as [_ [_ [Hsame H]]].
  destruct res as [[]|e|]; try (rewrite Hsame by discriminate; now left).
  destruct (H eq_refl) as [d [m [H1 [H2 [H3 [H4 H5]]]]]].
  assert (Et : shutil.copy2_target (fs wm) (sourceBase ++ r) (targetBase ++ r)
               = shutil.copy2_target (fs w) (sourceBase ++ r) (targetBase ++ r)).
  { unfold shutil.copy2_target, is_dir. now rewrite Htgt. }
  rewrite Et in *.
  destruct (list_eq_dec string_dec p
              (shutil.copy2_target (fs w) (sourceBase ++ r) (targetBase ++ r)))
    as [E|E].
  - right. auto.
  - left. apply store_file_others with (1 := H2); auto.
Qed.

(** Whatever the outcome, a regular file found after the leaf step was
    there before or is the one [copy2] wrote. *)
Lemma copy_leaf_files_inv r w w1 res p d0 m0 :
  comparable (sourceBase ++ r) (targetBase ++ r) = false ->
  copy_leaf r w = (w1, res) ->
  resolve (fs w1) p = inr (File d0 m0) ->
  resolve (fs w) p = inr (File d0 m0) \/
  (res = Returned tt /\ gitignore r = false /\
   p = shutil.copy2_target (fs w) (sourceBase ++ r) (targetBase ++ r)).
Proof.
  intros Hsep H Hp. destruct (gitignore r) eqn:Hg.
  { rewrite copy_leaf_ignored in H by assumption. injection H as <- <-. now left. }
  rewrite copy_leaf_copied in H by assumption. unfold bind in H.
  match type of H with
  | match ?pre with _ => _ end = _ => destruct pre as [wm r1] eqn:E1
  end.
  apply copy_leaf_mid in E1; [|assumption].
  destruct E1 as [Hgr [Hsrc [Htgt [Hdir _]]]].
  pose proof (grows_old _ _ _ Hgr p d0 m0) as Hback. cbn [fs asked] in Hback.
  destruct r1 as [[]|e|]; try (injection H as <- <-; left; now apply Hback).
  apply copy2_spec in H. destruct H as [_ [_ [Hsame H]]].
  destruct res as [[]|e|];
    try (rewrite Hsame in Hp by discriminate; left; now apply Hback).
  destruct (H eq_refl) as [d [m [H1 [H2 [H3 [H4 H5]]]]]].
  assert (Et : shutil.copy2_target (fs wm) (sourceBase ++ r) (targetBase ++ r)
               = shutil.copy2_target (fs w) (sourceBase ++ r) (targetBase ++ r)).
  { unfold shutil.copy2_target, is_dir. now rewrite Htgt. }
  rewrite Et in *.
  destruct (list_eq_dec string_dec p
              (shutil.copy2_target (fs w) (sourceBase ++ r) (targetBase ++ r)))
    as [E|E].
  - right. auto.
  - left. apply Hback. now apply (store_file_others_inv _ _ _ _ _ _ _ _ H2 E).
Qed.

(** A leaf step that returns makes directories only on the way to its
    destination. *)
Lemma copy_leaf_dirs r w w1 p :
  comparable (sourceBase ++ r) (targetBase ++ r) = false ->
  copy_leaf r w = (w1, Returned tt) ->
  is_dir (fs w1) p = true ->
  is_dir (fs w) p = true \/
  (gitignore r = false /\ prefix p (dirname (targetBase ++ r))).
Proof.
  intros Hsep H Hp. destruct (gitignore r) eqn:Hg.
  { rewrite copy_leaf_ignored in H by assumption. injection H as <-. now left. }
  rewrite copy_leaf_copied in H by assumption. unfold bind in H.
  match type of H with
  | match ?pre with _ => _ end = _ => destruct pre as [wm r1] eqn:E1
  end.
  apply copy_leaf_mid in E1; [|assumption].
  destruct E1 as [Hgr _].
  destruct r1 as [[]|e|]; try discriminate.
  apply copy2_spec in H. destruct H as [_ [_ [_ H]]].
  destruct (H eq_refl) as [d [m [_ [H2 _]]]].
  apply (store_file_dirs_inv _ _ _ _ _ _ H2) in Hp.
  destruct (is_prefix p (dirname (targetBase ++ r))) eqn:E.
  - right. split; [reflexivity | now apply is_prefix_spec].
  - left. apply is_prefix_false in E.
    pose proof (grows_off _ _ _ Hgr p E) as Ho. cbn [fs asked] in Ho.
    unfold is_dir in *. now rewrite <- Ho.
Qed.

(** ** Running the leaf step over a list of entries *)

Lemma run_items_cons i l w :
  run_items (i :: l) w =
  match item_step i w with
  | (w1, Returned _) => run_items l w1
  | (w1, Raised e) => (w1, Raised e)
  | (w1, OutOfFuel) => (w1, OutOfFuel)
  end.
Proof. reflexivity. Qed.

Lemma run_items_app l1 l2 w w' :
  run_items (l1 ++ l2) w = (w', Returned tt) ->
  exists w1, run_items l1 w = (w1, Returned tt) /\ run_items l2 w1 = (w', Returned tt).
Proof.
  unfold run_items. rewrite for_each_app. unfold bind. intros H.
  destruct (for_each l1 item_step w) as [w1 [[]|e|]]; try discriminate. eauto.
Qed.

Lemma run_items_returned l : forall w w',
  run_items l w = (w', Returned tt) -> ~ In None l.
Proof.
  induction l as [|i l IH]; intros w w' H; [tauto|].
  rewrite run_items_cons in H. intros [-> | Hin].
  - discriminate.
  - destruct (item_step i w) as [w1 [[]|e|]]; try discriminate. eapply IH; eauto.
Qed.

Lemma run_items_has_fuel l : forall w w' res,
  ~ In None l -> run_items l w = (w', res) -> res <> OutOfFuel.
Proof.
  induction l as [|i l IH]; intros w w' res Hn H.
  - injection H as <- <-. discriminate.
  - rewrite run_items_cons in H. destruct i as [r|]; [|exfalso; apply Hn; now left].
    simpl in H. destruct (visit r w) as [w1 r1] eqn:E1.
    apply visit_spec in E1. destruct E1 as [E1 _].
    destruct r1 as [[]|e|]; try congruence.
    apply IH in H; auto. intros Hin. apply Hn. now right.
Qed.

(** An invariant of every leaf step is an invariant of the run. *)
Lemma run_items_inv (I : world -> Prop) l :
  (forall r w w1 res, In (Some r) l -> I w -> copy_leaf r w = (w1, res) -> I w1) ->
  forall w w' res, I w -> run_items l w = (w', res) -> I w'.
Proof.
  induction l as [|i l IH]; intros Hstep w w' res Hw H.
  - now injection H as <- <-.
  - rewrite run_items_cons in H. destruct (item_step i w) as [w1 r1] eqn:E1.
    assert (I w1).
    { destruct i as [r|]; simpl in E1.
      - apply visit_spec in E1. destruct E1 as [_ [_ [[_ E1] | [_ [-> _]]]]].
        + eapply Hstep; eauto. now left.
        + exact Hw.
      - now injection E1 as <- <-. }
    destruct r1 as [[]|e|]; try (now injection H as <- <-).
    eapply IH; eauto. intros. eapply Hstep; eauto. now right.
Qed.

(** The same for the steps of a run that returns. *)
Lemma run_items_ok_inv (I : world -> Prop) l :
  (forall r w w1, In (Some r) l -> I w -> copy_leaf r w = (w1, Returned tt) -> I w1) ->
  forall w w', I w -> run_items l w = (w', Returned tt) -> I w'.
Proof.
  induction l as [|i l IH]; intros Hstep w w' Hw H.
  - now injection H as <-.
  - rewrite run_items_cons in H. destruct (item_step i w) as [w1 r1] eqn:E1.
    destruct r1 as [[]|e|]; try discriminate.
    destruct i as [r|]; simpl in E1; [|discriminate].
    apply visit_spec in E1. destruct E1 as [_ [_ [[_ E1] | [_ [_ E1]]]]];
      [|discriminate].
    apply IH with (w := w1); auto.
    + intros. eapply Hstep; eauto. now right.
    + eapply Hstep; eauto. now left.
Qed.

(** The log grows by the entries handled, in order. *)
Lemma run_items_log l : forall w w' res,
  run_items l w = (w', res) ->
  exists qs, queried w' = queried w ++ qs /\
    (forall r, In r qs -> In (Some r) l) /\
    (res = Returned tt -> map Some qs = l).
Proof.
  induction l as [|i l IH]; intros w w' res H.
  - injection H as <- <-. exists []. rewrite app_nil_r. repeat split; tauto.
  - rewrite run_items_cons in H. destruct i as [r|]; simpl in H.
    + destruct (visit r w) as [w1 r1] eqn:E1.
      apply visit_spec in E1. destruct E1 as [_ [_ [[_ E1] | [_ [-> ->]]]]].
      2:{ injection H as <- <-. exists []. rewrite app_nil_r.
          split; [reflexivity | split; [intros r' [] | discriminate]]. }
      apply copy_leaf_spec in E1. destruct E1 as [E1 _].
      destruct r1 as [[]|e|].
      * apply IH in H. destruct H as [qs [H1 [H2 H3]]]. exists (r :: qs).
        rewrite H1, E1, <- app_assoc. repeat split.
        -- intros r' [<-|Hr']; [now left | right; auto].
        -- intros Hres. simpl. now rewrite H3.
      * injection H as <- <-. exists [r]. repeat split; auto; try discriminate.
        intros r' [<-|[]]. now left.
      * injection H as <- <-. exists [r]. repeat split; auto; try discriminate.
        intros r' [<-|[]]. now left.
    + injection H as <- <-. exists []. rewrite app_nil_r.
      split; [reflexivity | split; [intros r [] | discriminate]].
Qed.

(** ** A run on a separate entry *)

Section Run.

Variable relative : path.
Variable n0 : node.
Hypothesis Hsep : separate relative.

Local Abbreviation source_kept := (source_kept sourceBase relative n0).
Local Abbreviation settled := (settled sourceBase targetBase gitignore).
Local Abbreviation written := (written sourceBase targetBase gitignore relative n0).
Local Abbreviation needed := (needed sourceBase targetBase gitignore relative n0).

Lemma leaf_separate r :
  leaf n0 relative r -> comparable (sourceBase ++ r) (targetBase ++ r) = false.
Proof.
  intros [u [-> _]]. rewrite !app_assoc. now apply comparable_app.
Qed.

Lemma source_kept_resolve w r :
  source_kept w -> leaf n0 relative r ->
  resolve (fs w) (sourceBase ++ r) = resolve n0 (sourceBase ++ r).
Proof.
  unfold source_kept. intros H [u [-> _]].
  rewrite !app_assoc.
  now rewrite (resolve_app (fs w) (sourceBase ++ relative)),
    (resolve_app n0 (sourceBase ++ relative)), H.
Qed.

Lemma step_source_kept r w w1 res :
  leaf n0 relative r -> source_kept w -> copy_leaf r w = (w1, res) ->
  source_kept w1.
Proof.
  unfold source_kept. intros [u [-> _]] Hw H.
  apply copy_leaf_spec in H. destruct H as [_ [_ H]].
  rewrite <- Hw. now apply touches_source with (u := u).
Qed.

(** A step on another leaf is invisible at the mirrored path of a
    leaf. *)
Lemma step_other_leaf r r0 w w1 res :
  leaf n0 relative r -> leaf n0 relative r0 -> r <> r0 ->
  copy_leaf r w = (w1, res) ->
  resolve (fs w1) (targetBase ++ r0) = resolve (fs w) (targetBase ++ r0).
Proof.
  intros L L0 Hne H. apply copy_leaf_spec in H. destruct H as [_ [_ H]].
  destruct (leaves_apart n0 relative r r0 L L0 Hne) as [H1 H2].
  now apply (t_apart _ _ _ H).
Qed.

(** Copying a leaf whose mirrored path is no directory puts the
    source file there. *)
Lemma step_copy r0 d m w w1 :
  leaf n0 relative r0 ->
  resolve n0 (sourceBase ++ r0) = inr (File d m) ->
  gitignore r0 = false ->
  source_kept w ->
  is_dir (fs w) (targetBase ++ r0) = false ->
  copy_leaf r0 w = (w1, Returned tt) ->
  resolve (fs w1) (targetBase ++ r0) = inr (File d m).
Proof.
  intros L0 Hsrc Hg Hw Hd H.
  apply copy_leaf_done in H; auto using leaf_separate.
  destruct H as [d' [m' [H1 [H2 _]]]].
  rewrite (source_kept_resolve w r0 Hw L0), Hsrc in H1.
  injection H1 as <- <-.
  unfold shutil.copy2_target in H2. now rewrite Hd in H2.
Qed.

Lemma step_before r r0 d m w w1 :
  leaf n0 relative r -> leaf n0 relative r0 ->
  resolve n0 (sourceBase ++ r0) = inr (File d m) ->
  gitignore r0 = false ->
  source_kept w /\ is_dir (fs w) (targetBase ++ r0) = false ->
  copy_leaf r w = (w1, Returned tt) ->
  source_kept w1 /\ is_dir (fs w1) (targetBase ++ r0) = false.
Proof.
  intros L L0 Hsrc Hg [Hw Hd] H. split; [exact (step_source_kept r w w1 _ L Hw H)|].
  destruct (list_eq_dec string_dec r r0) as [-> | Hne].
  - unfold is_dir. now rewrite (step_copy r0 d m w w1).
  - unfold is_dir in *. now rewrite (step_other_leaf r r0 w w1 _ L L0 Hne H).
Qed.

Lemma step_after r r0 d m w w1 :
  leaf n0 relative r -> leaf n0 relative r0 ->
  resolve n0 (sourceBase ++ r0) = inr (File d m) ->
  gitignore r0 = false ->
  source_kept w /\ resolve (fs w) (targetBase ++ r0) = inr (File d m) ->
  copy_leaf r w = (w1, Returned tt) ->
  source_kept w1 /\ resolve (fs w1) (targetBase ++ r0) = inr (File d m).
Proof.
  intros L L0 Hsrc Hg [Hw Hd] H. split; [exact (step_source_kept r w w1 _ L Hw H)|].
  destruct (list_eq_dec string_dec r r0) as [-> | Hne].
  - apply (step_copy r0 d m w w1); auto. unfold is_dir. now rewrite Hd.
  - now rewrite (step_other_leaf r r0 w w1 _ L L0 Hne H).
Qed.

Lemma copied_at_mirror l r0 d m w w' :
  (forall r, In (Some r) l -> leaf n0 relative r) ->
  In (Some r0) l ->
  resolve n0 (sourceBase ++ r0) = inr (File d m) ->
  gitignore r0 = false ->
  source_kept w ->
  is_dir (fs w) (targetBase ++ r0) = false ->
  run_items l w = (w', Returned tt) ->
  resolve (fs w') (targetBase ++ r0) = inr (File d m).
Proof.
  intros Hl Hin Hsrc Hg Hw Hd H.
  pose proof (Hl _ Hin) as L0.
  apply in_split in Hin. destruct Hin as [l1 [l2 ->]].
  apply run_items_app in H. destruct H as [w1 [H1 H2]].
  assert (I1 : source_kept w1 /\ is_dir (fs w1) (targetBase ++ r0) = false).
  { apply (run_items_ok_inv
             (fun w => source_kept w /\
                       is_dir (fs w) (targetBase ++ r0) = false) l1)
      with (w := w); auto.
    intros r wa wb Hr Ha Hstep.
    apply (step_before r r0 d m wa wb); auto.
    apply Hl. apply in_or_app. now left. }
  rewrite run_items_cons in H2. simpl in H2.
  rewrite visit_leaf in H2
    by (unfold is_dir;
        now rewrite (source_kept_resolve w1 r0 (proj1 I1) L0), Hsrc).
  destruct (copy_leaf r0 w1) as [w2 r2] eqn:E2.
  destruct r2 as [[]|e|]; try discriminate.
  assert (I2 : source_kept w2 /\ resolve (fs w2) (targetBase ++ r0) = inr (File d m)).
  { destruct I1 as [Ha Hb]. split.
    - exact (step_source_kept r0 w1 w2 _ L0 Ha E2).
    - now apply (step_copy r0 d m w1 w2). }
  apply (run_items_ok_inv
           (fun w => source_kept w /\
                     resolve (fs w) (targetBase ++ r0) = inr (File d m)) l2)
    with (w := w2); auto.
  intros r wa wb Hr Ha Hstep.
  apply (step_after r r0 d m wa wb); auto.
  apply Hl. apply in_or_app. right. now right.
Qed.

(** *** Leaves that a second copy would leave alone *)

Lemma separate_not_target r n :
  comparable (sourceBase ++ r) (targetBase ++ r) = false ->
  sourceBase ++ r <> shutil.copy2_target n (sourceBase ++ r) (targetBase ++ r).
Proof.
  intros H E. apply comparable_false in H. destruct H as [_ H]. apply H.
  rewrite E. unfold shutil.copy2_target.
  destruct (is_dir n (targetBase ++ r)).
  - now exists [basename (sourceBase ++ r)].
  - exists []. now rewrite app_nil_r.
Qed.

Lemma settled_noop r w :
  comparable (sourceBase ++ r) (targetBase ++ r) = false ->
  settled (fs w) r ->
  copy_leaf r w = (asked w r, Returned tt).
Proof.
  intros Hs Hr. destruct (gitignore r) eqn:Hg; [now apply copy_leaf_ignored|].
  destruct Hr as [Hr | [Hd [d [m [Hwm [H1 H2]]]]]]; [congruence|].
  rewrite copy_leaf_copied by assumption. rewrite Hd. simpl.
  unfold bind, ret, shutil.copy2. cbv zeta. simpl fs.
  pose proof (separate_not_target r (fs w) Hs) as Hne.
  destruct (path_eqb (sourceBase ++ r)
              (shutil.copy2_target (fs w) (sourceBase ++ r) (targetBase ++ r)))
    eqn:E; [apply path_eqb_spec in E; tauto|].
  simpl. unfold shutil.read_only. rewrite H1, H2, Hwm. simpl.
  destruct (path_snoc_cases
              (shutil.copy2_target (fs w) (sourceBase ++ r) (targetBase ++ r)))
    as [E0 | [q [x E0]]].
  { exfalso. apply comparable_false in Hs. destruct Hs as [_ Hs]. apply Hs.
    unfold shutil.copy2_target in E0.
    destruct (is_dir (fs w) (targetBase ++ r)).
    - destruct (targetBase ++ r); discriminate.
    - rewrite E0. now exists (sourceBase ++ r). }
  rewrite E0 in *. rewrite dirname_snoc.
  pose proof H2 as H3. apply (resolve_above_dir _ q x []) in H3.
  apply is_dir_resolve in H3. destruct H3 as [es [H3|H3]]; rewrite H3;
    now rewrite (store_id _ _ _ H2).
Qed.

(** The leaf step keeps the kind of its own mirrored path. *)
Lemma step_own_target r w w1 :
  comparable (sourceBase ++ r) (targetBase ++ r) = false ->
  gitignore r = false ->
  copy_leaf r w = (w1, Returned tt) ->
  is_dir (fs w1) (targetBase ++ r) = is_dir (fs w) (targetBase ++ r).
Proof.
  intros Hs Hg H. pose proof H as H'.
  apply copy_leaf_done in H; auto. destruct H as [d [m [_ [H2 [H3 _]]]]].
  apply copy_leaf_spec in H'. destruct H' as [_ [_ Ht]].
  unfold shutil.copy2_target in *.
  destruct (is_dir (fs w) (targetBase ++ r)) eqn:E.
  - now apply (t_dirs _ _ _ Ht).
  - unfold is_dir. now rewrite H2.
Qed.

Lemma step_settles r w w1 :
  leaf n0 relative r ->
  (forall d m, gitignore r = false ->
               resolve (fs w) (sourceBase ++ r) = inr (File d m) ->
               writable m = true) ->
  copy_leaf r w = (w1, Returned tt) ->
  settled (fs w1) r.
Proof.
  intros L Hwr H. destruct (gitignore r) eqn:Hg; [now left | right].
  pose proof (leaf_separate r L) as Hs.
  pose proof (step_own_target r w w1 Hs Hg H) as Hown.
  pose proof H as H'. apply copy_leaf_spec in H'. destruct H' as [_ [_ Ht]].
  apply copy_leaf_done in H; auto. destruct H as [d [m [H1 [H2 [H3 H4]]]]].
  split; [exact H4|]. exists d, m.
  split; [exact (Hwr d m eq_refl H1) | split].
  - rewrite <- H1. apply comparable_false in Hs. destruct Hs as [Hs1 Hs2].
    now apply (t_apart _ _ _ Ht).
  - unfold shutil.copy2_target in *. now rewrite Hown.
Qed.

Lemma step_keeps_settled r r' w w1 :
  leaf n0 relative r -> leaf n0 relative r' ->
  settled (fs w) r ->
  copy_leaf r' w = (w1, Returned tt) ->
  settled (fs w1) r.
Proof.
  intros L L' Hr H.
  destruct Hr as [Hr | [Hd [d [m [Hwm [H1 H2]]]]]]; [now left | right].
  pose proof (leaf_separate r' L') as Hs'.
  pose proof H as H'. apply copy_leaf_spec in H'. destruct H' as [_ [_ Ht]].
  assert (Hsrc : resolve (fs w1) (sourceBase ++ r) = resolve (fs w) (sourceBase ++ r)).
  { destruct L as [u [-> _]]. destruct L' as [u' [-> _]].
    assert (Hc : comparable (sourceBase ++ relative ++ u)
                   (targetBase ++ relative ++ u') = false)
      by (rewrite !app_assoc; now apply comparable_app).
    apply comparable_false in Hc. destruct Hc as [Hc1 Hc2].
    now apply (t_apart _ _ _ Ht). }
  assert (Hkind : is_dir (fs w1) (targetBase ++ r) = is_dir (fs w) (targetBase ++ r)).
  { destruct (is_dir (fs w) (targetBase ++ r)) eqn:E.
    - now apply (t_dirs _ _ _ Ht).
    - unfold shutil.copy2_target in H2. rewrite E in H2.
      apply (t_files _ _ _ Ht) in H2. destruct H2 as [d' [m' H2]].
      unfold is_dir. now rewrite H2. }
  split; [now apply (t_dirs _ _ _ Ht)|]. exists d, m.
  split; [exact Hwm | split; [congruence|]].
  replace (shutil.copy2_target (fs w1) (sourceBase ++ r) (targetBase ++ r))
    with (shutil.copy2_target (fs w) (sourceBase ++ r) (targetBase ++ r))
    by (unfold shutil.copy2_target; now rewrite Hkind).
  destruct (copy_leaf_files r' w w1 (Returned tt) _ d m Hs' H H2)
    as [Hkeep | [_ [Hg' Heq]]]; [exact Hkeep|].
  assert (r = r').
  { assert (P : prefix (targetBase ++ r)
                  (shutil.copy2_target (fs w) (sourceBase ++ r) (targetBase ++ r))).
    { unfold shutil.copy2_target. destruct (is_dir (fs w) (targetBase ++ r)).
      - now exists [basename (sourceBase ++ r)].
      - exists []. now rewrite app_nil_r. }
    assert (P' : prefix (targetBase ++ r')
                  (shutil.copy2_target (fs w) (sourceBase ++ r') (targetBase ++ r'))).
    { unfold shutil.copy2_target. destruct (is_dir (fs w) (targetBase ++ r')).
      - now exists [basename (sourceBase ++ r')].
      - exists []. now rewrite app_nil_r. }
    rewrite <- Heq in P'.
    destruct (list_eq_dec string_dec r r') as [E | Hne]; [exact E|].
    destruct (leaves_apart n0 relative r r' L L' Hne) as [A1 A2].
    destruct (prefix_same_path _ _ _ P P'); tauto. }
  subst r'. apply copy_leaf_done in H; auto.
  destruct H as [d' [m' [G1 [G2 _]]]]. congruence.
Qed.

(** A run that returns has met no directory among its entries. *)
Lemma run_returned_leaves l : forall w w',
  (forall r, In (Some r) l -> leaf n0 relative r) ->
  source_kept w ->
  run_items l w = (w', Returned tt) ->
  forall r, In (Some r) l -> is_dir n0 (sourceBase ++ r) = false.
Proof.
  induction l as [|i l IH]; intros w w' Hl Hw H r Hr; [destruct Hr|].
  rewrite run_items_cons in H. destruct (item_step i w) as [w1 r1] eqn:E1.
  destruct r1 as [[]|e|]; try discriminate.
  destruct i as [r1|]; simpl in E1; [|discriminate].
  apply visit_spec in E1. destruct E1 as [_ [_ [[Hd E1] | [_ [_ E1]]]]];
    [|discriminate].
  destruct Hr as [[= ->] | Hr].
  - unfold is_dir in *.
    now rewrite <- (source_kept_resolve w r Hw (Hl r (or_introl eq_refl))).
  - apply (IH w1 w'); auto.
    + intros r' Hr'. apply Hl. now right.
    + exact (step_source_kept r1 w w1 _ (Hl _ (or_introl eq_refl)) Hw E1).
Qed.

Lemma run_returned_not_stopped l w w' :
  (forall r, In (Some r) l -> leaf n0 relative r) ->
  source_kept w ->
  run_items l w = (w', Returned tt) ->
  ~ stopped n0 l.
Proof.
  intros Hl Hw H [Hn | [r [Hr Hd]]].
  - now apply run_items_returned in H.
  - rewrite (run_returned_leaves l w w' Hl Hw H r Hr) in Hd. discriminate.
Qed.

(** The log of a run holds entries that are no directories. *)
Lemma run_items_log_kept l : forall w w' res,
  (forall r, In (Some r) l -> leaf n0 relative r) ->
  source_kept w ->
  run_items l w = (w', res) ->
  exists qs, queried w' = queried w ++ qs /\
    (forall r, In r qs ->
       In (Some r) l /\ is_dir n0 (sourceBase ++ r) = false) /\
    (res = Returned tt -> map Some qs = l).
Proof.
  induction l as [|i l IH]; intros w w' res Hl Hw H.
  - injection H as <- <-. exists []. rewrite app_nil_r.
    split; [reflexivity | split; [intros r [] | reflexivity]].
  - rewrite run_items_cons in H. destruct i as [r|]; simpl in H.
    + destruct (visit r w) as [w1 r1] eqn:E1.
      pose proof (Hl r (or_introl eq_refl)) as L.
      apply visit_spec in E1. destruct E1 as [_ [_ [[Hd E1] | [_ [-> ->]]]]].
      2:{ injection H as <- <-. exists []. rewrite app_nil_r.
          split; [reflexivity | split; [intros r' [] | discriminate]]. }
      assert (Hd0 : is_dir n0 (sourceBase ++ r) = false).
      { unfold is_dir in *. now rewrite <- (source_kept_resolve w r Hw L). }
      pose proof (step_source_kept r w w1 _ L Hw E1) as Hw1.
      apply copy_leaf_spec in E1. destruct E1 as [E1 _].
      destruct r1 as [[]|e|].
      * apply IH in H; auto.
        2:{ intros r' Hr'. apply Hl. now right. }
        destruct H as [qs [H1 [H2 H3]]]. exists (r :: qs).
        rewrite H1, E1, <- app_assoc. repeat split.
        -- destruct H as [<-|Hr']; [now left | right; now apply H2].
        -- destruct H as [<-|Hr']; [exact Hd0 | now apply H2].
        -- intros Hres. simpl. now rewrite H3.
      * injection H as <- <-. exists [r]. repeat split; auto; try discriminate.
        -- destruct H as [<-|[]]. now left.
        -- destruct H as [<-|[]]. exact Hd0.
      * injection H as <- <-. exists [r]. repeat split; auto; try discriminate.
        -- destruct H as [<-|[]]. now left.
        -- destruct H as [<-|[]]. exact Hd0.
    + injection H as <- <-. exists []. rewrite app_nil_r.
      split; [reflexivity | split; [intros r [] | discriminate]].
Qed.

Lemma run_settles l : forall w w',
  (forall r, In (Some r) l -> leaf n0 relative r) ->
  (forall r d m, In (Some r) l -> gitignore r = false ->
                 resolve n0 (sourceBase ++ r) = inr (File d m) ->
                 writable m = true) ->
  source_kept w ->
  run_items l w = (w', Returned tt) ->
  forall r, In (Some r) l -> settled (fs w') r.
Proof.
  induction l as [|i l IH]; intros w w' Hl Hwr Hw H r Hr; [destruct Hr|].
  rewrite run_items_cons in H. destruct (item_step i w) as [w1 r1] eqn:E1.
  destruct r1 as [[]|e|]; try discriminate.
  destruct i as [r1|]; simpl in E1; [|discriminate].
  apply visit_spec in E1. destruct E1 as [_ [_ [[Hd E1] | [_ [_ E1]]]]];
    [|discriminate].
  pose proof (Hl r1 (or_introl eq_refl)) as L1.
  pose proof (step_source_kept r1 w w1 _ L1 Hw E1) as Hw1.
  destruct (in_dec (option_eq_dec_path) (Some r) l) as [Hin | Hnin].
  - apply IH with w1; auto.
    + intros r' Hr'. apply Hl. now right.
    + intros r' d m Hr'. apply Hwr. now right.
  - destruct Hr as [[= ->] | Hr]; [|tauto].
    apply (run_items_ok_inv (fun w => settled (fs w) r) l) with (w := w1); auto.
    + intros r' wa wb Hr' Ha Hstep.
      apply (step_keeps_settled r r' wa wb); auto.
      apply Hl. now right.
    + apply (step_settles r w w1); auto.
      intros d m Hg Hsrc. apply (Hwr r d m); auto; [now left|].
      now rewrite <- (source_kept_resolve w r Hw L1).
Qed.

Lemma settled_run l : forall w,
  ~ In None l ->
  (forall r, In (Some r) l ->
     comparable (sourceBase ++ r) (targetBase ++ r) = false /\
     is_dir (fs w) (sourceBase ++ r) = false /\ settled (fs w) r) ->
  exists w', run_items l w = (w', Returned tt) /\ fs w' = fs w.
Proof.
  induction l as [|i l IH]; intros w Hn Hl.
  - exists w. now split.
  - rewrite run_items_cons. destruct i as [r|]; [|exfalso; apply Hn; now left].
    simpl. destruct (Hl r (or_introl eq_refl)) as [Hs [Hd Hr]].
    rewrite (visit_leaf r w Hd), (settled_noop r w Hs Hr).
    destruct (IH (asked w r)) as [w' [H1 H2]].
    + intros Hin. apply Hn. now right.
    + intros r' Hr'. apply Hl. now right.
    + exists w'. now split.
Qed.

(** *** Where regular files can change *)

Lemma step_writes r w w1 res p d m :
  leaf n0 relative r -> source_kept w ->
  copy_leaf r w = (w1, res) ->
  resolve (fs w) p = inr (File d m) ->
  resolve (fs w1) p = inr (File d m) \/ written p.
Proof.
  intros L Hw H Hp. pose proof (leaf_separate r L) as Hs.
  destruct (copy_leaf_files r w w1 res p d m Hs H Hp)
    as [Hkeep | [-> [Hg Heq]]]; [now left | right].
  apply copy_leaf_done in H; auto. destruct H as [d' [m' [H1 _]]].
  rewrite (source_kept_resolve w r Hw L) in H1.
  exists r, d', m'. repeat split; auto.
  rewrite Heq. unfold shutil.copy2_target.
  destruct (is_dir (fs w) (targetBase ++ r)); auto.
Qed.

Lemma run_writes l w w' res :
  (forall r, In (Some r) l -> leaf n0 relative r) ->
  source_kept w ->
  run_items l w = (w', res) ->
  forall p d m,
    resolve (fs w) p = inr (File d m) ->
    resolve (fs w') p = inr (File d m) \/ written p.
Proof.
  intros Hl Hw H.
  apply (run_items_inv
           (fun wa => source_kept wa /\
              forall p d m, resolve (fs w) p = inr (File d m) ->
                            resolve (fs wa) p = inr (File d m) \/ written p) l)
    with (w := w) (res := res) (w' := w'); auto.
  intros r wa wb res' Hr [Ha Hb] Hstep. split.
  - exact (step_source_kept r wa wb res' (Hl r Hr) Ha Hstep).
  - intros p d m Hp. destruct (Hb p d m Hp) as [Hkeep | Hwr]; [|now right].
    exact (step_writes r wa wb res' p d m (Hl r Hr) Ha Hstep Hkeep).
Qed.

Lemma step_files_inv r w w1 res p d m :
  leaf n0 relative r -> source_kept w ->
  copy_leaf r w = (w1, res) ->
  resolve (fs w1) p = inr (File d m) ->
  resolve (fs w) p = inr (File d m) \/ written p.
Proof.
  intros L Hw H Hp. pose proof (leaf_separate r L) as Hs.
  destruct (copy_leaf_files_inv r w w1 res p d m Hs H Hp)
    as [Hold | [-> [Hg Heq]]]; [now left | right].
  apply copy_leaf_done in H; auto. destruct H as [d' [m' [H1 _]]].
  rewrite (source_kept_resolve w r Hw L) in H1.
  exists r, d', m'. repeat split; auto.
  rewrite Heq. unfold shutil.copy2_target.
  destruct (is_dir (fs w) (targetBase ++ r)); auto.
Qed.

Lemma run_files_inv l w w' res :
  (forall r, In (Some r) l -> leaf n0 relative r) ->
  source_kept w ->
  run_items l w = (w', res) ->
  forall p d m,
    resolve (fs w') p = inr (File d m) ->
    resolve (fs w) p = inr (File d m) \/ written p.
Proof.
  intros Hl Hw H.
  apply (run_items_inv
           (fun wa => source_kept wa /\
              forall p d m, resolve (fs wa) p = inr (File d m) ->
                            resolve (fs w) p = inr (File d m) \/ written p) l)
    with (w := w) (res := res) (w' := w'); auto.
  intros r wa wb res' Hr [Ha Hb] Hstep. split.
  - exact (step_source_kept r wa wb res' (Hl r Hr) Ha Hstep).
  - intros p d m Hp.
    destruct (step_files_inv r wa wb res' p d m (Hl r Hr) Ha Hstep Hp)
      as [Hold | Hwr]; auto.
Qed.

(** *** Where directories can appear *)

Lemma step_dirs r w w1 p :
  leaf n0 relative r -> source_kept w ->
  copy_leaf r w = (w1, Returned tt) ->
  is_dir (fs w1) p = true ->
  is_dir (fs w) p = true \/ needed p.
Proof.
  intros L Hw H Hp. pose proof (leaf_separate r L) as Hs.
  destruct (copy_leaf_dirs r w w1 p Hs H Hp) as [Hold | [Hg Hpre]]; [now left | right].
  apply copy_leaf_done in H; auto. destruct H as [d [m [H1 _]]].
  rewrite (source_kept_resolve w r Hw L) in H1.
  exists r, d, m. auto.
Qed.

Lemma run_dirs l w w' :
  (forall r, In (Some r) l -> leaf n0 relative r) ->
  source_kept w ->
  run_items l w = (w', Returned tt) ->
  forall p, is_dir (fs w') p = true -> is_dir (fs w) p = true \/ needed p.
Proof.
  intros Hl Hw H.
  apply (run_items_ok_inv
           (fun wa => source_kept wa /\
              forall p, is_dir (fs wa) p = true ->
                        is_dir (fs w) p = true \/ needed p) l)
    with (w := w) (w' := w'); auto.
  intros r wa wb Hr [Ha Hb] Hstep. split.
  - exact (step_source_kept r wa wb _ (Hl r Hr) Ha Hstep).
  - intros p Hp.
    destruct (step_dirs r wa wb p (Hl r Hr) Ha Hstep Hp) as [Hold | Hn]; auto.
Qed.

End Run.

End Copier.

(** * Further facts used by the claims *)

(** The matcher only matters through its answers on the entries
    handled. *)
Lemma copy_leaf_ext sourceBase targetBase (g g' : path -> bool) r w :
  g r = g' r ->
  copy_leaf sourceBase targetBase g r w = copy_leaf sourceBase targetBase g' r w.
Proof. intros H. unfold copy_leaf, bind, call. now rewrite H. Qed.

Lemma visit_ext sourceBase targetBase (g g' : path -> bool) r w :
  g r = g' r ->
  visit sourceBase targetBase g r w = visit sourceBase targetBase g' r w.
Proof. intros H. unfold visit. now rewrite (copy_leaf_ext _ _ g g' r w H). Qed.

Lemma run_items_ext sourceBase targetBase (g g' : path -> bool) l :
  (forall r, In (Some r) l -> g r = g' r) ->
  forall w,
    run_items sourceBase targetBase g l w = run_items sourceBase targetBase g' l w.
Proof.
  induction l as [|i l IH]; intros Hl w; [reflexivity|].
  rewrite !run_items_cons.
  assert (Hi : item_step sourceBase targetBase g i w
               = item_step sourceBase targetBase g' i w).
  { destruct i as [r|]; [|reflexivity]. simpl. apply visit_ext.
    apply Hl. now left. }
  rewrite Hi. destruct (item_step sourceBase targetBase g' i w) as [w1 [[]|e|]]; auto.
  apply IH. intros r Hr. apply Hl. now right.
Qed.

(** On a separate entry, two matchers that agree off the directories of
    the source make the same run. *)
Lemma run_items_ext_source sourceBase targetBase (g g' : path -> bool)
  relative n0 :
  separate sourceBase targetBase relative ->
  forall l,
    (forall r, In (Some r) l -> leaf sourceBase n0 relative r) ->
    (forall r, In (Some r) l -> is_dir n0 (sourceBase ++ r) = false ->
               g r = g' r) ->
    forall w,
      source_kept sourceBase relative n0 w ->
      run_items sourceBase targetBase g l w
      = run_items sourceBase targetBase g' l w.
Proof.
  intros Hsep. induction l as [|i l IH]; intros Hl Hg w Hw; [reflexivity|].
  rewrite !run_items_cons.
  assert (Hi : item_step sourceBase targetBase g i w
               = item_step sourceBase targetBase g' i w).
  { destruct i as [r|]; [|reflexivity]. simpl. unfold visit.
    destruct (is_dir (fs w) (sourceBase ++ r)) eqn:Ed; [reflexivity|].
    apply copy_leaf_ext. apply Hg; [now left|].
    unfold is_dir in *.
    now rewrite <- (source_kept_resolve sourceBase relative n0 w r Hw
                      (Hl r (or_introl eq_refl))). }
  rewrite Hi.
  destruct (item_step sourceBase targetBase g' i w) as [w1 [[]|e|]] eqn:E1; auto.
  apply IH.
  - intros r Hr. apply Hl. now right.
  - intros r Hr. apply Hg. now right.
  - destruct i as [r|]; simpl in E1; [|discriminate].
    apply visit_spec in E1. destruct E1 as [_ [_ [[_ E1] | [_ [_ E1]]]]];
      [|discriminate].
    exact (step_source_kept sourceBase targetBase g' relative n0 Hsep r w w1 _
             (Hl r (or_introl eq_refl)) Hw E1).
Qed.

(** The mirrored path of an excluded regular file is left alone,
    however the run ends. *)
Lemma excluded_mirror_kept sourceBase targetBase (gitignore : path -> bool) fuel :
  forall (relative u : path) (w w' : world) (res : result unit)
         (data : list Byte.byte) (meta : stat_result),
    copyNotGitignoreTree fuel sourceBase targetBase relative gitignore w = (w', res) ->
    resolve (fs w) (sourceBase ++ relative ++ u) = inr (File data meta) ->
    gitignore (relative ++ u) = true ->
    resolve (fs w') (targetBase ++ relative ++ u)
    = resolve (fs w) (targetBase ++ relative ++ u).
Proof.
  induction fuel as [|fuel IH]; intros relative u w w' res data meta Hrun Hsrc Hg.
  - now injection Hrun as <- <-.
  - rewrite copy_unfold in Hrun.
    destruct (listable (fs w) (sourceBase ++ relative)) eqn:Ed.
    + destruct u as [|c0 u].
      { rewrite app_nil_r in Hsrc. unfold listable in Ed.
        now rewrite Hsrc in Ed. }
      assert (Hloop : forall cs w0 d m,
        resolve (fs w0) (sourceBase ++ relative ++ c0 :: u) = inr (File d m) ->
        for_each cs
          (fun child =>
             copyNotGitignoreTree fuel sourceBase targetBase (relative ++ [child])
               gitignore) w0 = (w', res) ->
        resolve (fs w') (targetBase ++ relative ++ c0 :: u)
        = resolve (fs w0) (targetBase ++ relative ++ c0 :: u)).
      { induction cs as [|c cs IHcs]; intros w0 d m Hsrc0 Hrun0.
        - now injection Hrun0 as <- <-.
        - cbn [for_each] in Hrun0. unfold bind in Hrun0.
          destruct (copyNotGitignoreTree fuel sourceBase targetBase (relative ++ [c])
                      gitignore w0) as [w1 r1] eqn:E1.
          pose proof (copy_touches _ _ _ _ _ _ _ _ E1) as Ht.
          assert (Hsame : resolve (fs w1) (targetBase ++ relative ++ c0 :: u)
                          = resolve (fs w0) (targetBase ++ relative ++ c0 :: u)).
          { destruct (string_dec c c0) as [-> | Hne].
            - replace (relative ++ c0 :: u) with ((relative ++ [c0]) ++ u)
                by (now rewrite <- app_assoc).
              apply (IH (relative ++ [c0]) u w0 w1 r1 d m E1).
              + now rewrite <- app_assoc.
              + now rewrite <- app_assoc.
            - apply (t_apart _ _ _ Ht).
              + intros [v Hv]. rewrite <- !app_assoc in Hv.
                apply app_inv_head, app_inv_head in Hv. simpl in Hv. congruence.
              + intros [v Hv]. rewrite <- !app_assoc in Hv.
                apply app_inv_head, app_inv_head in Hv. simpl in Hv. congruence. }
          destruct (t_files _ _ _ Ht _ _ _ Hsrc0) as [d' [m' Hsrc']].
          destruct r1 as [[]|e|]; try (injection Hrun0 as <- <-; exact Hsame).
          rewrite <- Hsame. now apply (IHcs w1 d' m'). }
      exact (Hloop _ w data meta Hsrc Hrun).
    + apply visit_spec in Hrun.
      destruct Hrun as [_ [_ [[Hd Hrun] | [_ [-> _]]]]]; [|reflexivity].
      destruct u as [|c0 u].
      * rewrite app_nil_r in *. rewrite copy_leaf_ignored in Hrun by assumption.
        now injection Hrun as <- <-.
      * rewrite app_assoc in Hsrc. apply resolve_above_dir in Hsrc. congruence.
Qed.

(** Below an existing entry whose regular files are all excluded the
    copier changes nothing in the file system, whatever its outcome. *)
Lemma all_excluded_frame sourceBase targetBase (gitignore : path -> bool) fuel :
  forall relative w w' res,
    path_exists (fs w) (sourceBase ++ relative) = true ->
    (forall u data meta,
        resolve (fs w) (sourceBase ++ relative ++ u) = inr (File data meta) ->
        gitignore (relative ++ u) = true) ->
    copyNotGitignoreTree fuel sourceBase targetBase relative gitignore w = (w', res) ->
    fs w' = fs w.
Proof.
  induction fuel as [|fuel IH]; intros relative w w' res Hex Hall H.
  - now injection H as <- <-.
  - rewrite copy_unfold in H.
    destruct (listable (fs w) (sourceBase ++ relative)) eqn:El.
    + apply listable_resolve in El. destruct El as [es Ees].
      refine (for_each_rel (fun w1 w2 => fs w1 = fs w -> fs w2 = fs w) _ _ _ _ _
                w w' res H eq_refl).
      * auto.
      * auto.
      * intros c w1 w2 r Hc Hrun Hw1. rewrite <- Hw1.
        unfold children in Hc. rewrite Ees in Hc.
        apply In_find_entry in Hc. destruct Hc as [n Hn].
        assert (Hr : resolve (fs w) (sourceBase ++ relative ++ [c]) = inr n).
        { rewrite app_assoc, resolve_app, Ees. simpl. now rewrite Hn. }
        apply (IH (relative ++ [c]) w1 w2 r); [| |exact Hrun].
        -- unfold path_exists. now rewrite Hw1, Hr.
        -- intros u data meta Hu. rewrite <- app_assoc. apply Hall with data meta.
           rewrite <- Hw1. now rewrite <- app_assoc in Hu.
    + apply visit_spec in H. destruct H as [_ [_ [[Hd H] | [_ [-> _]]]]];
        [|reflexivity].
      unfold path_exists in Hex. unfold is_dir in Hd.
      destruct (resolve (fs w) (sourceBase ++ relative)) as [e | [d m | es | es]] eqn:Er;
        try discriminate.
      rewrite copy_leaf_ignored in H.
      * now injection H as <- <-.
      * rewrite <- (app_nil_r relative). apply (Hall [] d m). now rewrite app_nil_r.
Qed.

Lemma for_each_ext {A} (xs : list A) (body body' : A -> M unit) :
  (forall x w, In x xs -> body x w = body' x w) ->
  forall w, for_each xs body w = for_each xs body' w.
Proof.
  induction xs as [|x xs IH]; intros H w; [reflexivity|].
  simpl. unfold bind. rewrite (H x w) by now left.
  destruct (body' x w) as [w1 [[]|e|]]; auto.
  apply IH. intros y w2 Hy. apply H. now right.
Qed.

(** A call only asks the matcher about its own entry and what lies
    below it. *)
Lemma copy_ext sourceBase targetBase (g g' : path -> bool) fuel :
  forall relative w,
    (forall r, prefix relative r -> g r = g' r) ->
    copyNotGitignoreTree fuel sourceBase targetBase relative g w
    = copyNotGitignoreTree fuel sourceBase targetBase relative g' w.
Proof.
  induction fuel as [|fuel IH]; intros relative w H; [reflexivity|].
  rewrite !copy_unfold. destruct (listable (fs w) (sourceBase ++ relative)).
  - apply for_each_ext. intros c w1 _. apply IH.
    intros r Hr. apply H. apply prefix_trans with (2 := Hr). now exists [c].
  - apply visit_ext. apply H. exists []. now rewrite app_nil_r.
Qed.

Lemma store_replace n p a a' :
  resolve n p = inr a -> exists n', store n p a' = Some n' /\ resolve n' p = inr a'.
Proof.
  revert n. induction p as [|x q IH]; intros n H.
  - exists a'. now split.
  - simpl in H. destruct n as [d m | es | es]; [discriminate| |].
    + destruct (find_entry x es) as [c|] eqn:Ef; [|discriminate].
      destruct (IH c H) as [c' [Hc' _]].
      assert (Hs : store (Dir es) (x :: q) a' = Some (Dir (set_entry x
                     (match q with [] => a' | _ :: _ => c' end) es))).
      { destruct q as [|y q']; [reflexivity|].
        rewrite store_cons by discriminate. now rewrite Ef, Hc'. }
      eexists. split; [exact Hs|]. now apply store_same with (Dir es).
    + destruct (find_entry x es) as [c|] eqn:Ef; [|discriminate].
      destruct (IH c H) as [c' [Hc' _]].
      assert (Hs : store (Locked es) (x :: q) a' = Some (Locked (set_entry x
                     (match q with [] => a' | _ :: _ => c' end) es))).
      { destruct q as [|y q']; [reflexivity|].
        rewrite store_cons_locked by discriminate. now rewrite Ef, Hc'. }
      eexists. split; [exact Hs|]. now apply store_same with (Locked es).
Qed.

(** A store below an existing node is a store inside that node. *)
Lemma store_below n p a q v :
  resolve n p = inr a -> q <> [] ->
  store n (p ++ q) v =
  match store a q v with
  | Some a' => store n p a'
  | None => None
  end.
Proof.
  intros H Hq. revert n H. induction p as [|x p IH]; intros n H.
  - injection H as <-. simpl. now destruct (store n q v).
  - simpl in H. destruct n as [d m | es | es]; [discriminate| |].
    + destruct (find_entry x es) as [c|] eqn:Ef; [|discriminate].
      cbn [app]. rewrite store_cons by (destruct p; simpl; congruence).
      rewrite Ef, (IH c H). destruct (store a q v) as [a'|]; [|reflexivity].
      destruct p as [|y p'].
      * simpl in H. injection H as ->. reflexivity.
      * rewrite store_cons by discriminate. now rewrite Ef.
    + destruct (find_entry x es) as [c|] eqn:Ef; [|discriminate].
      cbn [app]. rewrite store_cons_locked by (destruct p; simpl; congruence).
      rewrite Ef, (IH c H). destruct (store a q v) as [a'|]; [|reflexivity].
      destruct p as [|y p'].
      * simpl in H. injection H as ->. reflexivity.
      * rewrite store_cons_locked by discriminate. now rewrite Ef.
Qed.

(** The calls of the leaf step when everything they need is in place. *)
Lemma makedirs_last q x w :
  q <> [] -> path_exists (fs w) q = true ->
  os.makedirs (q ++ [x]) w = os.mkdir (q ++ [x]) w.
Proof.
  intros Hq He. unfold os.makedirs. rewrite length_app, Nat.add_1_r.
  cbn [os.makedirs_from]. rewrite dirname_snoc.
  destruct q as [|y q']; [congruence|].
  unfold bind, os.exists_, ret. now rewrite He.
Qed.

Lemma mkdir_new q x w e es n' :
  resolve (fs w) (q ++ [x]) = inl e ->
  resolve (fs w) q = inr (Dir es) ->
  store (fs w) (q ++ [x]) (Dir []) = Some n' ->
  os.mkdir (q ++ [x]) w = (set_fs w n', Returned tt).
Proof.
  intros H1 H2 H3. unfold os.mkdir. now rewrite H1, dirname_snoc, H2, H3.
Qed.

Lemma copy2_new src q x w d m es n' :
  src <> q ++ [x] ->
  resolve (fs w) src = inr (File d m) ->
  resolve (fs w) (q ++ [x]) = inl FileNotFoundError ->
  resolve (fs w) q = inr (Dir es) ->
  store (fs w) (q ++ [x]) (File d m) = Some n' ->
  shutil.copy2 src (q ++ [x]) w = (set_fs w n', Returned tt).
Proof.
  intros Hne Hs Ht Hq Hst. unfold shutil.copy2. cbv zeta.
  assert (Et : shutil.copy2_target (fs w) src (q ++ [x]) = q ++ [x]).
  { unfold shutil.copy2_target, is_dir. now rewrite Ht. }
  rewrite Et. destruct (path_eqb src (q ++ [x])) eqn:E;
    [apply path_eqb_spec in E; tauto|].
  simpl. unfold shutil.read_only. now rewrite Hs, Ht, dirname_snoc, Hq, Hst.
Qed.

Lemma repeat_r_snoc k : repeat "r" k ++ ["r"] = repeat "r" (S k).
Proof. symmetry. apply repeat_cons. Qed.

Lemma replicating_leaf k w :
  resolve (fs w) (repeat "r" (S k)) = inr level ->
  exists w1,
    copy_leaf [] ["r"; "r"] ignore_nothing (repeat "r" (S k) ++ ["x"]) w
    = (w1, Returned tt) /\
    resolve (fs w1) (repeat "r" (S (S k))) = inr level.
Proof.
  rewrite <- (repeat_r_snoc (S k)).
  assert (EP : ["r"; "r"] ++ repeat "r" (S k) = repeat "r" (S k) ++ ["r"; "r"]).
  { change ["r"; "r"] with (repeat "r" 2).
    rewrite <- !repeat_app. f_equal. lia. }
  assert (HP : repeat "r" (S k) <> []) by discriminate.
  revert EP HP. generalize (repeat "r" (S k)) as P. intros P EP HP H.
  rewrite copy_leaf_copied by reflexivity.
  assert (ET : ["r"; "r"] ++ P ++ ["x"] = ((P ++ ["r"]) ++ ["r"]) ++ ["x"]).
  { rewrite app_assoc, EP, <- !app_assoc. reflexivity. }
  rewrite ET, dirname_snoc. change ([] ++ P ++ ["x"]) with (P ++ ["x"]).
  set (w0 := asked w (P ++ ["x"])).
  assert (H0 : resolve (fs w0) P = inr level) by exact H.
  assert (Hd : is_dir (fs w) ((P ++ ["r"]) ++ ["r"]) = false).
  { unfold is_dir. rewrite <- app_assoc, resolve_app, H. reflexivity. }
  rewrite Hd. cbn [negb]. unfold bind.
  rewrite makedirs_last.
  2:{ destruct P; [congruence | discriminate]. }
  2:{ unfold path_exists. now rewrite resolve_app, H0. }
  destruct (store_replace (fs w0) P level
              (Dir [("x", file_x); ("r", Dir [("x", file_x); ("r", Dir [])])]) H0)
    as [n1 [Hs1 Hr1]].
  rewrite (mkdir_new (P ++ ["r"]) "r" w0 FileNotFoundError [("x", file_x)] n1).
  2:{ now rewrite <- app_assoc, resolve_app, H0. }
  2:{ now rewrite resolve_app, H0. }
  2:{ rewrite <- app_assoc, (store_below _ _ _ _ _ H0) by discriminate. exact Hs1. }
  destruct (store_replace n1 P _
              (Dir [("x", file_x);
                    ("r", Dir [("x", file_x); ("r", Dir [("x", file_x)])])]) Hr1)
    as [n2 [Hs2 Hr2]].
  rewrite (copy2_new (P ++ ["x"]) ((P ++ ["r"]) ++ ["r"]) "x" (set_fs w0 n1)
             [Byte.x78] meta0 [] n2).
  - eexists. split; [reflexivity|].
    cbn [fs set_fs]. now rewrite resolve_app, Hr2.
  - intros E. rewrite <- !app_assoc in E. apply app_inv_head in E. discriminate.
  - cbn [fs set_fs]. now rewrite resolve_app, Hr1.
  - cbn [fs set_fs]. now rewrite <- !app_assoc, resolve_app, Hr1.
  - cbn [fs set_fs]. now rewrite <- !app_assoc, resolve_app, Hr1.
  - cbn [fs set_fs]. rewrite <- !app_assoc, (store_below _ _ _ _ _ Hr1) by discriminate.
    exact Hs2.
Qed.

Lemma replicating_never_ends fuel : forall k w,
  resolve (fs w) (repeat "r" (S k)) = inr level ->
  snd (copyNotGitignoreTree fuel [] ["r"; "r"] (repeat "r" (S k)) ignore_nothing w)
  = OutOfFuel.
Proof.
  induction fuel as [|fuel IH]; intros k w H; [reflexivity|].
  rewrite copy_unfold. change ([] ++ repeat "r" (S k)) with (repeat "r" (S k)).
  unfold listable, children. rewrite H. cbn [level map fst for_each]. unfold bind.
  destruct fuel as [|fuel]; [reflexivity|].
  assert (Hx : is_dir (fs w) ([] ++ repeat "r" (S k) ++ ["x"]) = false).
  { unfold is_dir.
    change ([] ++ repeat "r" (S k) ++ ["x"]) with (repeat "r" (S k) ++ ["x"]).
    now rewrite resolve_app, H. }
  rewrite (copy_unfold_leaf _ _ _ _ _ _ Hx).
  destruct (replicating_leaf k w H) as [w1 [H1 H2]]. rewrite H1.
  rewrite repeat_r_snoc. specialize (IH (S k) w1 H2).
  destruct (copyNotGitignoreTree (S fuel) [] ["r"; "r"] (repeat "r" (S (S k)))
              ignore_nothing w1) as [w2 r2].
  simpl in IH. subst r2. reflexivity.
Qed.

(** * The claims *)

(** ** C1 *)




(** ** C2 *)

(** C2, as stated, fails: an excluded file that the destination held
    before the copy is still there after it. *)
Lemma excluded_file_already_present :
  let w := fresh tree_prefilled in
  let out := copyNotGitignoreTree 3 [] ["build"] ["a"] ignore_log w in
  snd out = Returned tt /\
  resolve (fs w) ([] ++ ["a"] ++ ["ignore.log"]) = inr (File [Byte.x6c] meta1) /\
  ignore_log (["a"] ++ ["ignore.log"]) = true /\
  path_exists (fs (fst out)) (["build"] ++ ["a"] ++ ["ignore.log"]) = true.
Proof. vm_compute. repeat split. Qed.

(** C2 (amended): the copier neither creates nor changes anything at the
    mirrored path of an excluded regular file, whatever the outcome of the
    run: the path resolves after the run to what it resolved to before,
    and is absent afterwards if it was absent before. *)
Theorem excluded_file_not_copied
  (sourceBase targetBase : path) (gitignore : path -> bool) (fuel : nat) :
  forall (relative u : path) (w w' : world) (res : result unit)
         (data : list Byte.byte) (meta : stat_result),
    copyNotGitignoreTree fuel sourceBase targetBase relative gitignore w = (w', res) ->
    resolve (fs w) (sourceBase ++ relative ++ u) = inr (File data meta) ->
    gitignore (relative ++ u) = true ->
    resolve (fs w') (targetBase ++ relative ++ u)
    = resolve (fs w) (targetBase ++ relative ++ u) /\
    (path_exists (fs w) (targetBase ++ relative ++ u) = false ->
     path_exists (fs w') (targetBase ++ relative ++ u) = false).
Proof.
  intros relative u w w' res data meta Hrun Hsrc Hg.
  pose proof (excluded_mirror_kept sourceBase targetBase gitignore fuel relative u
                w w' res data meta Hrun Hsrc Hg) as E.
  split; [exact E|]. unfold path_exists. now rewrite E.
Qed.

Lemma excluded_file_not_copied_witness :
  path_exists
    (fs (fst (copyNotGitignoreTree 3 [] ["build"] ["a"] ignore_log (fresh tree_ab))))
    ["build"; "a"; "ignore.log"] = false.
Proof.
  apply (excluded_file_not_copied [] ["build"] ignore_log 3 ["a"] ["ignore.log"]
           (fresh tree_ab) _ (Returned tt) [Byte.x6c] meta1).
  - vm_compute. reflexivity.
  - reflexivity.
  - reflexivity.
  - reflexivity.
Defined.

(** ** C3 *)




(** ** C4 *)




(** ** C5 *)

(** C5, as stated, fails.  Copying the entry [r] into the destination [r]
    returns, and so does the second run, but the second run finds the
    copy [r/r/x] of the first and copies it once more, to [r/r/r/x].
    And with source and destination on different branches the first run
    copies the file [a/b.txt], which its owner may not write, together
    with its mode, so that the second run cannot open the copy for
    writing and raises [PermissionError]. *)
Lemma second_copy_differs :
  (let run := copyNotGitignoreTree 4 [] ["r"] ["r"] ignore_nothing in
   let w1 := fst (run (fresh tree_inside)) in
   let w2 := fst (run w1) in
   snd (run (fresh tree_inside)) = Returned tt /\
   snd (run w1) = Returned tt /\
   path_exists (fs w1) ["r"; "r"; "r"; "x"] = false /\
   path_exists (fs w2) ["r"; "r"; "r"; "x"] = true) /\
  (let run := copyNotGitignoreTree 3 [] ["build"] ["a"] ignore_nothing in
   let w1 := fst (run (fresh tree_read_only)) in
   comparable ([] ++ ["a"]) (["build"] ++ ["a"]) = false /\
   snd (run (fresh tree_read_only)) = Returned tt /\
   snd (run w1) = Raised PermissionError).
Proof. vm_compute. repeat split. Qed.

(** C5 (amended): with source and destination on different branches, and
    every regular file below the source entry that the matcher does not
    exclude writable by its owner, a copy that returns can be run again
    on its own result: the second run returns as well and leaves the file
    system exactly as the first run left it, so the files copied and
    their content are those of a single run. *)
Theorem copy_twice_is_copy_once
  (sourceBase targetBase relative : path) (gitignore : path -> bool)
  (fuel : nat) (w w1 : world) :
  comparable (sourceBase ++ relative) (targetBase ++ relative) = false ->
  (forall u data meta,
      resolve (fs w) (sourceBase ++ relative ++ u) = inr (File data meta) ->
      gitignore (relative ++ u) = false ->
      writable meta = true) ->
  copyNotGitignoreTree fuel sourceBase targetBase relative gitignore w
  = (w1, Returned tt) ->
  exists w2,
    copyNotGitignoreTree fuel sourceBase targetBase relative gitignore w1
    = (w2, Returned tt) /\ fs w2 = fs w1.
Proof.
  intros Hsep Hwr Hrun.
  pose proof (copy_source sourceBase targetBase gitignore fuel relative w w1 _
                Hsep Hrun) as Hsrc.
  rewrite copy_is_walk in Hrun by exact Hsep.
  rewrite copy_is_walk by exact Hsep.
  rewrite (walk_ext sourceBase fuel (fs w1) (fs w) relative Hsrc).
  assert (Hl : forall r,
    In (Some r) (walk sourceBase fuel (fs w) relative) ->
    leaf sourceBase (fs w) relative r) by (intros r; apply walk_leaf).
  apply (settled_run sourceBase targetBase gitignore).
  - now apply run_items_returned in Hrun.
  - intros r Hr. split; [|split].
    + apply (leaf_separate sourceBase targetBase relative (fs w) Hsep).
      now apply Hl.
    + unfold is_dir.
      rewrite (source_kept_resolve sourceBase relative (fs w) w1 r Hsrc (Hl r Hr)).
      exact (run_returned_leaves sourceBase targetBase gitignore relative (fs w)
               Hsep _ w w1 Hl eq_refl Hrun r Hr).
    + apply (run_settles sourceBase targetBase gitignore relative (fs w) Hsep
               (walk sourceBase fuel (fs w) relative) w w1); auto.
      * intros r' d m Hr' Hg Hres. destruct (Hl r' Hr') as [u [-> _]].
        now apply (Hwr u d m).
      * reflexivity.
Qed.

Lemma copy_twice_is_copy_once_witness :
  exists w2,
    copyNotGitignoreTree 3 [] ["build"] ["a"] ignore_log
      (fst (copyNotGitignoreTree 3 [] ["build"] ["a"] ignore_log (fresh tree_ab)))
    = (w2, Returned tt) /\
    fs w2 = fs (fst (copyNotGitignoreTree 3 [] ["build"] ["a"] ignore_log
                       (fresh tree_ab))).
Proof.
  apply (copy_twice_is_copy_once [] ["build"] ["a"] ignore_log 3 (fresh tree_ab)).
  - reflexivity.
  - intros u data meta H _.
    now apply (files_writable_resolve ([] ++ ["a"] ++ u) tree_ab data meta).
  - vm_compute. reflexivity.
Defined.

(** ** C6 *)

(** C6, as stated, fails: the copier visits [a] and [a/f], whose mirrored
    paths are [build/a] and [build/a/f], and overwrites the file
    [build/a/f/f] that was there before.  And with the destination inside
    the source entry it writes into the source: the file [r/r/x] below the
    source entry [r] is overwritten by the copy of [r/x]. *)
Lemma file_inside_mirror_overwritten :
  (let w := fresh tree_nested_f in
   let out := copyNotGitignoreTree 3 [] ["build"] ["a"] ignore_nothing w in
   snd out = Returned tt /\
   queried (fst out) = [["a"; "f"]] /\
   resolve (fs w) ["build"; "a"; "f"; "f"] = inr (File [Byte.x6f] meta0) /\
   resolve (fs (fst out)) ["build"; "a"; "f"; "f"] = inr (File [Byte.x6e] meta1)) /\
  (let w := fresh tree_overlap in
   let out := copyNotGitignoreTree 4 [] ["r"] ["r"] ignore_nothing w in
   snd out = Returned tt /\
   resolve (fs w) ([] ++ ["r"] ++ ["r"; "x"]) = inr (File [Byte.x42] meta1) /\
   resolve (fs (fst out)) ([] ++ ["r"] ++ ["r"; "x"]) = inr (File [Byte.x41] meta0)).
Proof. vm_compute. repeat split. Qed.

(** C6 (amended): whatever the outcome, the copier deletes nothing: a
    directory stays a directory and a regular file stays a regular file;
    a regular file outside the destination entry keeps its bytes and
    metadata.  With source and destination on different branches, the
    source entry is left as it is, and a regular file is changed or
    created only where [copy2] puts a regular file of the source that the
    matcher does not exclude: at its mirrored path or, that being a
    directory, at the entry of the file's own name inside it.  And,
    whatever the outcome, the copier creates only what the entries it
    visits need, the visited entries being those at or below the source
    entry that it calls the matcher on: a directory that is there after
    the call and was not there before lies on the way to the mirrored
    path of a visited entry that the matcher does not exclude, and a
    regular file that is there after the call and was not there before
    with the same bytes and metadata is at the mirrored path of such an
    entry or, that being a directory, at the entry of its name inside
    it. *)
Theorem copy_frame
  (sourceBase targetBase relative : path) (gitignore : path -> bool)
  (fuel : nat) (w w' : world) (res : result unit) :
  copyNotGitignoreTree fuel sourceBase targetBase relative gitignore w = (w', res) ->
  (forall p, is_dir (fs w) p = true -> is_dir (fs w') p = true) /\
  (forall p d m,
      resolve (fs w) p = inr (File d m) ->
      exists d' m', resolve (fs w') p = inr (File d' m')) /\
  (forall p d m,
      resolve (fs w) p = inr (File d m) ->
      ~ prefix (targetBase ++ relative) p ->
      resolve (fs w') p = inr (File d m)) /\
  (comparable (sourceBase ++ relative) (targetBase ++ relative) = false ->
   resolve (fs w') (sourceBase ++ relative) = resolve (fs w) (sourceBase ++ relative) /\
   forall p d m,
     (resolve (fs w) p = inr (File d m) /\ resolve (fs w') p <> inr (File d m)) \/
     (resolve (fs w') p = inr (File d m) /\ resolve (fs w) p <> inr (File d m)) ->
     exists u data meta,
       resolve (fs w) (sourceBase ++ relative ++ u) = inr (File data meta) /\
       gitignore (relative ++ u) = false /\
       (p = targetBase ++ relative ++ u \/
        p = (targetBase ++ relative ++ u) ++ [basename (sourceBase ++ relative ++ u)])) /\
  (exists qs,
     queried w' = queried w ++ qs /\
     (forall r, In r qs -> prefix relative r) /\
     (forall p,
         is_dir (fs w') p = true ->
         is_dir (fs w) p = true \/
         exists r, In r qs /\ gitignore r = false /\
                   prefix p (dirname (targetBase ++ r))) /\
     (forall p d m,
         resolve (fs w') p = inr (File d m) ->
         resolve (fs w) p = inr (File d m) \/
         exists r, In r qs /\ gitignore r = false /\
                   (p = targetBase ++ r \/
                    p = (targetBase ++ r) ++ [basename (sourceBase ++ r)]))).
Proof.
  intros Hrun. pose proof (copy_touches _ _ _ _ _ _ _ _ Hrun) as [T1 T2 T3 T4].
  split; [exact T2 | split; [exact T3 | split; [exact T4|]]].
  split; [|exact (copy_creates _ _ _ _ _ _ _ _ Hrun)].
  intros Hsep. split.
  - exact (copy_source _ _ _ _ _ _ _ _ Hsep Hrun).
  - intros p d m Hp. rewrite copy_is_walk in Hrun by exact Hsep.
    assert (Hw : written sourceBase targetBase gitignore relative (fs w) p).
    { destruct Hp as [[Hp Hne] | [Hp Hne]].
      - destruct (run_writes sourceBase targetBase gitignore relative (fs w) Hsep
                    (walk sourceBase fuel (fs w) relative) w w' res) with (p := p)
          (d := d) (m := m) as [Hkeep | Hwr]; auto; try tauto.
        + intros r. apply walk_leaf.
        + reflexivity.
      - destruct (run_files_inv sourceBase targetBase gitignore relative (fs w) Hsep
                    (walk sourceBase fuel (fs w) relative) w w' res) with (p := p)
          (d := d) (m := m) as [Hkeep | Hwr]; auto; try tauto.
        + intros r. apply walk_leaf.
        + reflexivity. }
    destruct Hw as [r [d' [m' [L [Hg [Hsrc Hp']]]]]].
    destruct L as [u [-> _]]. exists u, d', m'. auto.
Qed.

Lemma copy_frame_witness :
  resolve
    (fs (fst (copyNotGitignoreTree 3 [] ["build"] ["a"] ignore_log (fresh tree_ab))))
    ([] ++ ["a"])
  = resolve tree_ab ([] ++ ["a"]).
Proof.
  apply (proj1 (proj1 (proj2 (proj2 (proj2
           (copy_frame [] ["build"] ["a"] ignore_log 3 (fresh tree_ab) _
              (Returned tt) ltac:(vm_compute; reflexivity))))) eq_refl)).
Defined.

(** ** C7 *)




(** ** C8 *)

(** C8: a source path that does not exist and that the matcher excludes
    makes the call return at once: no error, and the file system is the
    one it was (only the call of the matcher is on record). *)
Theorem missing_excluded_source_is_skipped
  (sourceBase targetBase relative : path) (gitignore : path -> bool)
  (fuel : nat) (w : world) :
  path_exists (fs w) (sourceBase ++ relative) = false ->
  gitignore relative = true ->
  copyNotGitignoreTree (S fuel) sourceBase targetBase relative gitignore w
  = ({| fs := fs w; queried := queried w ++ [relative] |}, Returned tt).
Proof.
  intros Hmiss Hg.
  assert (Hd : is_dir (fs w) (sourceBase ++ relative) = false).
  { unfold path_exists in Hmiss. unfold is_dir.
    destruct (resolve (fs w) (sourceBase ++ relative)); [reflexivity | discriminate]. }
  rewrite copy_unfold_leaf by exact Hd. now apply copy_leaf_ignored.
Qed.

Lemma missing_excluded_source_is_skipped_witness :
  copyNotGitignoreTree 1 [] ["build"] ["gone"] ignore_all (fresh tree_ab)
  = ({| fs := tree_ab; queried := [["gone"]] |}, Returned tt).
Proof.
  apply (missing_excluded_source_is_skipped [] ["build"] ["gone"] ignore_all 0
           (fresh tree_ab)).
  - reflexivity.
  - reflexivity.
Defined.

(** ** C9 *)




(** ** C10 *)

(** C10, as stated, fails: the tree [r/x], [r/r/x] is finite and has no
    links, yet copying the entry [r] into the destination [r/r] goes one
    level deeper with every call, however much fuel there is: each level
    finds the copy that the level above has just planted. *)
Lemma copy_into_itself_never_ends :
  ~ exists fuel,
      snd (copyNotGitignoreTree fuel [] ["r"; "r"] ["r"] ignore_nothing
             (fresh tree_replicating)) <> OutOfFuel.
Proof.
  intros [fuel H]. apply H. now apply (replicating_never_ends fuel 0).
Qed.

(** C10 (amended): with the destination entry on another branch than the
    source entry, the recursion ends: the source tree stays the finite
    tree it is, every nested call goes one component deeper into it, and
    any fuel above its height is enough, the copier never runs out of
    it. *)
Theorem copy_terminates
  (sourceBase targetBase relative : path) (gitignore : path -> bool)
  (fuel : nat) (w : world) :
  comparable (sourceBase ++ relative) (targetBase ++ relative) = false ->
  source_height (fs w) (sourceBase ++ relative) < fuel ->
  snd (copyNotGitignoreTree fuel sourceBase targetBase relative gitignore w)
  <> OutOfFuel.
Proof.
  intros Hsep Hh. rewrite copy_is_walk by exact Hsep.
  destruct (run_items sourceBase targetBase gitignore
              (walk sourceBase fuel (fs w) relative) w) as [w' res] eqn:E.
  simpl. apply run_items_has_fuel in E; [exact E|].
  now apply walk_fuel.
Qed.

Lemma copy_terminates_witness :
  snd (copyNotGitignoreTree 3 [] ["build"] ["a"] ignore_log (fresh tree_ab))
  <> OutOfFuel.
Proof.
  apply (copy_terminates [] ["build"] ["a"] ignore_log 3 (fresh tree_ab)).
  - reflexivity.
  - vm_compute. lia.
Defined.

(** * The callers of the copier *)

(** ** Facts about text *)

Lemma str_append_assoc (a b c : string) :
  ((a ++ b) ++ c)%string = (a ++ (b ++ c))%string.
Proof. induction a as [|x a IH]; simpl; [reflexivity | now rewrite IH]. Qed.

Lemma str_append_nil_r (a : string) : (a ++ "")%string = a.
Proof. induction a as [|x a IH]; simpl; [reflexivity | now rewrite IH]. Qed.

Lemma concat_nil_cons (x : string) (xs : list string) :
  String.concat "" (x :: xs) = (x ++ String.concat "" xs)%string.
Proof. destruct xs; simpl; [now rewrite str_append_nil_r | reflexivity]. Qed.

Lemma contains_app c (a b : string) :
  contains c (a ++ b) = contains c a || contains c b.
Proof.
  induction a as [|x a IH]; simpl; [reflexivity|].
  now rewrite IH, orb_assoc.
Qed.

Lemma count_app c (a b : string) : count c (a ++ b) = count c a + count c b.
Proof. induction a as [|x a IH]; simpl; [reflexivity | rewrite IH; lia]. Qed.

Lemma split_nonempty sep s : split sep s <> [].
Proof.
  destruct s as [|c r]; simpl; [discriminate|].
  destruct (Ascii.eqb c sep); [discriminate|].
  destruct (split sep r); discriminate.
Qed.

Lemma split_length sep s : List.length (split sep s) = S (count sep s).
Proof.
  induction s as [|c r IH]; simpl; [reflexivity|].
  destruct (Ascii.eqb c sep); simpl; [now rewrite IH|].
  destruct (split sep r); simpl in *; [discriminate | exact IH].
Qed.

Lemma split_no_sep sep a : contains sep a = false -> split sep a = [a].
Proof.
  induction a as [|c a IH]; simpl; intros H; [reflexivity|].
  apply orb_false_elim in H. destruct H as [H1 H2].
  now rewrite H1, (IH H2).
Qed.

Lemma split_app_sep sep a b :
  contains sep a = false ->
  split sep (a ++ String sep b) = a :: split sep b.
Proof.
  induction a as [|c a IH]; simpl; intros H.
  - now rewrite Ascii.eqb_refl.
  - apply orb_false_elim in H. destruct H as [H1 H2].
    now rewrite H1, (IH H2).
Qed.

(** A line that ends in a line end is an item of its own. *)
Lemma split_line a rest :
  contains newline a = false ->
  split newline ((a ++ nl) ++ rest) = a :: split newline rest.
Proof.
  intros H. rewrite str_append_assoc. unfold nl. simpl append.
  now apply split_app_sep.
Qed.

Lemma last_cons_nonempty {A} (x : A) (l : list A) (d : A) :
  l <> [] -> last (x :: l) d = last l d.
Proof. destruct l; [congruence | reflexivity]. Qed.

Lemma split_last sep t b d :
  last (split sep (t ++ String sep b)) d = last (split sep b) d.
Proof.
  induction t as [|c t IH]; simpl.
  - rewrite Ascii.eqb_refl. apply last_cons_nonempty, split_nonempty.
  - destruct (Ascii.eqb c sep).
    + rewrite last_cons_nonempty by apply split_nonempty. exact IH.
    + pose proof (split_length sep (t ++ String sep b)) as Hl.
      rewrite count_app in Hl. simpl in Hl. rewrite Ascii.eqb_refl in Hl.
      destruct (split sep (t ++ String sep b)) as [|l ls]; [discriminate|].
      destruct ls as [|l' ls]; [simpl in Hl; lia|].
      rewrite <- IH. reflexivity.
Qed.

Lemma last_map_nonempty {A B} (f : A -> B) (l : list A) (d : A) (d' : B) :
  l <> [] -> last (map f l) d' = f (last l d).
Proof.
  induction l as [|x l IH]; intros H; [congruence|].
  destruct l as [|y l]; [reflexivity|].
  change (last (map f (y :: l)) d' = f (last (y :: l) d)).
  apply IH. discriminate.
Qed.

Lemma substring_all s : substring 0 (String.length s) s = s.
Proof. induction s as [|c s IH]; simpl; [reflexivity | now rewrite IH]. Qed.

Lemma substring_cut n : forall s,
  (substring 0 n s ++ substring n (String.length s - n) s)%string = s.
Proof.
  induction n as [|n IH]; intros s.
  - rewrite Nat.sub_0_r, substring_all. now destruct s.
  - destruct s as [|c s]; simpl; [reflexivity|]. now rewrite IH.
Qed.

Lemma strip_forge_prefixed mlv :
  String.prefix "forge-" mlv = true -> mlv = ("forge-" ++ strip_forge mlv)%string.
Proof.
  intros H. unfold strip_forge. rewrite H.
  apply prefix_correct in H. simpl String.length in H.
  rewrite <- H. symmetry. apply substring_cut.
Qed.

Lemma write_mods_all mods : forall out,
  write_mods [] mods out = (out ++ String.concat "" (map mod_line mods))%string.
Proof.
  induction mods as [|f r IH]; intros out.
  - simpl. now rewrite str_append_nil_r.
  - cbn [write_mods existsb negb map]. rewrite IH, concat_nil_cons.
    now rewrite str_append_assoc.
Qed.

Lemma read_clientmods_outcome int strip txt :
  strip "" = "" -> int "" = None ->
  read_clientmods int strip txt =
  if String.eqb txt "" then inr [] else inl ValueError.
Proof.
  intros Hs Hi. unfold read_clientmods, read.
  destruct (String.eqb txt ""); simpl; [reflexivity|].
  now rewrite Hs, Hi.
Qed.

(** ** The text steps of [createModpackZip] and [createServerZip] *)

(** X1: the list of override entries has one entry more than
    [overrides.txt] has line ends, so it is never empty; a text that ends
    in a line end gives a last entry that is the stripped empty string. *)
Theorem read_overrides_entries (strip : string -> string) (txt : string) :
  List.length (read_overrides strip txt) = S (count newline txt) /\
  last (read_overrides strip (txt ++ nl)) "" = strip "".
Proof.
  unfold read_overrides. split.
  - now rewrite length_map, split_length.
  - rewrite (last_map_nonempty strip _ "" "") by apply split_nonempty.
    unfold nl. now rewrite split_last.
Qed.

(** X2: the block that reads [clientmods.txt] calls [read()] twice on the
    same open file, and the second call has nothing left to return.  An
    empty file gives no client mods; a file with any content makes
    [int('')] raise [ValueError], whatever the content is. *)
Theorem clientmods_txt_must_be_empty
  (int : string -> option Z) (strip : string -> string) (txt : string) :
  strip "" = "" -> int "" = None ->
  (txt = "" -> read_clientmods int strip txt = inr []) /\
  (txt <> "" -> read_clientmods int strip txt = inl ValueError).
Proof.
  intros Hs Hi. rewrite (read_clientmods_outcome int strip txt Hs Hi).
  split; intros H.
  - now rewrite H.
  - apply String.eqb_neq in H. now rewrite H.
Qed.

Lemma clientmods_txt_must_be_empty_witness :
  read_clientmods int_decimal strip_blanks "238222" = inl ValueError.
Proof.
  apply (proj2 (clientmods_txt_must_be_empty int_decimal strip_blanks "238222"
                  eq_refl eq_refl)).
  discriminate.
Defined.

(** X3: when the two blocks that make [server.txt] end without an
    exception, [clientmods.txt] was empty and no mod is left out: the
    text is the line [mcv/mlv], with one leading [forge-] taken off the
    id of the first mod loader, followed by the line [projectID/fileID]
    of every file of the manifest, in the order of the manifest. *)
Theorem server_txt_lists_every_mod
  (int : string -> option Z) (strip : string -> string) (txt : string)
  (m : manifest) (out : string) :
  strip "" = "" -> int "" = None ->
  createServerZip_modlist int strip txt m = (Some out, inr tt) ->
  txt = "" /\
  exists mlv rest v,
    modLoaders m = mlv :: rest /\
    (mlv = ("forge-" ++ v)%string \/
     (String.prefix "forge-" mlv = false /\ v = mlv)) /\
    out = (minecraft_version m ++ "/" ++ v ++ nl
           ++ String.concat "" (map mod_line (files m)))%string.
Proof.
  intros Hs Hi Hrun. unfold createServerZip_modlist in Hrun.
  rewrite (read_clientmods_outcome int strip txt Hs Hi) in Hrun.
  destruct (String.eqb txt "") eqn:Et; [|discriminate].
  apply String.eqb_eq in Et. split; [exact Et|].
  unfold write_server_txt in Hrun.
  destruct (modLoaders m) as [|mlv rest]; [discriminate|].
  injection Hrun as Hout. exists mlv, rest, (strip_forge mlv).
  split; [reflexivity|]. split.
  - destruct (String.prefix "forge-" mlv) eqn:Ep.
    + left. now apply strip_forge_prefixed.
    + right. split; [reflexivity|]. unfold strip_forge. now rewrite Ep.
  - rewrite <- Hout, write_mods_all, str_append_assoc. cbn [append].
    now rewrite str_append_assoc.
Qed.

Lemma server_txt_lists_every_mod_witness :
  "" = "" /\
  exists mlv rest v,
    modLoaders manifest_example = mlv :: rest /\
    (mlv = ("forge-" ++ v)%string \/
     (String.prefix "forge-" mlv = false /\ v = mlv)) /\
    ("1.16.5/36.2.0" ++ nl ++ "238222/3043174" ++ nl ++ "306612/3219669" ++ nl)%string
    = (minecraft_version manifest_example ++ "/" ++ v ++ nl
       ++ String.concat "" (map mod_line (files manifest_example)))%string.
Proof.
  apply (server_txt_lists_every_mod int_decimal strip_blanks "" manifest_example
           ("1.16.5/36.2.0" ++ nl ++ "238222/3043174" ++ nl ++ "306612/3219669" ++ nl)
           eq_refl eq_refl).
  vm_compute. reflexivity.
Defined.

(** X4: the [motd] item of [writelines] has no line end, so in
    [server.properties] the text [online-mode=true] continues the [motd]
    line and is no line of its own: with a pack name and a version that
    hold no line end, the file has these six lines. *)
Theorem server_properties_lines (modpack_name : string) (m : manifest) :
  contains newline modpack_name = false ->
  contains newline (version m) = false ->
  split newline (server_properties modpack_name m) =
  [ "allow-flight=true";
    "enable-command-block=true";
    "max-players=32";
    (("motd=" ++ section_sign ++ modpack_name ++ "\nv" ++ version m
        ++ section_sign ++ "r") ++ "online-mode=true")%string;
    "spawn-protection=0";
    "view-distance=8";
    "" ].
Proof.
  intros Hn Hv. unfold server_properties. rewrite !concat_nil_cons.
  rewrite !split_line by reflexivity.
  rewrite <- (str_append_assoc _ ("online-mode=true" ++ nl)).
  rewrite <- (str_append_assoc _ "online-mode=true" nl).
  rewrite split_line.
  - now rewrite !split_line by reflexivity.
  - rewrite !contains_app, Hn, Hv. reflexivity.
Qed.

Lemma server_properties_lines_witness :
  nth 3 (split newline (server_properties "Caelum" manifest_example)) ""
  = (("motd=" ++ section_sign ++ "Caelum" ++ "\nv" ++ "1.2.0" ++ section_sign ++ "r")
       ++ "online-mode=true")%string.
Proof.
  rewrite (server_properties_lines "Caelum" manifest_example eq_refl eq_refl).
  reflexivity.
Defined.

(** ** Facts about removing a directory *)

Lemma find_remove_same x es : find_entry x (remove_entry x es) = None.
Proof.
  induction es as [|[k c] r IH]; simpl; [reflexivity|].
  destruct (String.eqb k x) eqn:E; [exact IH|].
  simpl. now rewrite E.
Qed.

Lemma find_remove_other x y es :
  x <> y -> find_entry y (remove_entry x es) = find_entry y es.
Proof.
  intros Hne. induction es as [|[k c] r IH]; simpl; [reflexivity|].
  destruct (String.eqb k x) eqn:E.
  - apply String.eqb_eq in E. subst k.
    apply String.eqb_neq in Hne. now rewrite Hne.
  - simpl. now rewrite IH.
Qed.

Lemma comparable_comm (p q : path) : comparable p q = comparable q p.
Proof. unfold comparable. apply orb_comm. Qed.

Lemma comparable_under (t p q : path) :
  comparable (t ++ p) (t ++ q) = comparable p q.
Proof.
  unfold comparable. induction t as [|x t IH]; simpl; [reflexivity|].
  now rewrite String.eqb_refl.
Qed.

Lemma rmtree_spec parent name w w' res :
  shutil.rmtree parent name w = (w', res) ->
  queried w' = queried w /\ res <> OutOfFuel /\
  (res = Returned tt ->
   resolve (fs w') (parent ++ [name]) = inl FileNotFoundError /\
   is_dir (fs w') parent = true /\
   forall p, comparable (parent ++ [name]) p = false ->
             resolve (fs w') p = resolve (fs w) p).
Proof.
  unfold shutil.rmtree. intros H.
  destruct (resolve (fs w) (parent ++ [name])) as [e | [d m | es0 | es0]] eqn:Et;
    try (injection H as <- <-; repeat split; try discriminate; congruence);
    (match type of H with
     | match ?r with _ => _ end = _ => destruct r as [t'|] eqn:Erem
     end;
     [ destruct (store (fs w) (parent ++ [name]) t') as [n'|];
       injection H as <- <-; repeat split; try discriminate; congruence |]);
    (destruct (resolve (fs w) parent) as [e | [d m | es | es]] eqn:Ep;
     try (injection H as <- <-; repeat split; try discriminate; congruence));
    (match type of H with
     | match store ?n ?q ?v with _ => _ end = _ =>
         destruct (store n q v) as [n'|] eqn:Es
     end;
     try (injection H as <- <-; repeat split; try discriminate; congruence));
    (injection H as <- <-; split; [reflexivity|]; split; [discriminate|];
     intros _; cbn [fs set_fs];
     pose proof (store_same _ _ _ _ Es) as Hp;
     split; [|split];
     [ rewrite resolve_app, Hp; simpl; now rewrite find_remove_same
     | unfold is_dir; now rewrite Hp
     | intros p Hc; apply comparable_false in Hc; destruct Hc as [Hc1 Hc2];
       destruct (path_cases parent p) as [Ha Hb | <- | x r -> | x r E];
       [ now apply (store_apart _ _ _ _ _ Es)
       | exfalso; apply Hc2; now exists [name]
       | rewrite !resolve_app, Hp, Ep; simpl;
         rewrite find_remove_other; [reflexivity|];
         intros <-; apply Hc1; exists r; now rewrite <- app_assoc
       | exfalso; apply Hc2; exists (x :: r ++ [name]);
         rewrite E, <- app_assoc; reflexivity ] ]).
Qed.

Lemma mkdir_returned q w w' :
  os.mkdir q w = (w', Returned tt) -> resolve (fs w') q = inr (Dir []).
Proof.
  unfold os.mkdir. intros H. repeat run_step; try discriminate;
    (injection H as <-; cbn [fs set_fs]; eapply store_same; eassumption).
Qed.

Lemma makedirs_returned name w w' :
  os.makedirs name w = (w', Returned tt) -> resolve (fs w') name = inr (Dir []).
Proof.
  unfold os.makedirs. destruct (List.length name) as [|k]; cbn [os.makedirs_from].
  - apply mkdir_returned.
  - unfold bind at 1.
    destruct (match dirname name with
              | [] => ret tt
              | _ :: _ =>
                  e <- os.exists_ (dirname name) ;;
                  (if e then ret tt
                   else except_FileExistsError (os.makedirs_from k (dirname name)))
              end w) as [w1 [[]|e|]]; try discriminate.
    apply mkdir_returned.
Qed.

(** Below an existing directory, [makedirs] is [mkdir]. *)
Lemma makedirs_child q x w :
  is_dir (fs w) q = true -> os.makedirs (q ++ [x]) w = os.mkdir (q ++ [x]) w.
Proof.
  intros Hd. destruct q as [|y q].
  - reflexivity.
  - apply makedirs_last; [discriminate|].
    unfold path_exists. apply is_dir_resolve in Hd.
    destruct Hd as [es [-> | ->]]; reflexivity.
Qed.

Lemma store_child n q x v :
  is_dir n q = true -> exists n', store n (q ++ [x]) v = Some n'.
Proof.
  intros Hd. apply is_dir_resolve in Hd. destruct Hd as [es [Hq | Hq]].
  - destruct (store_replace _ _ _ (Dir (set_entry x v es)) Hq) as [n' [Hs _]].
    exists n'. rewrite (store_below _ _ _ _ _ Hq) by discriminate. exact Hs.
  - destruct (store_replace _ _ _ (Locked (set_entry x v es)) Hq) as [n' [Hs _]].
    exists n'. rewrite (store_below _ _ _ _ _ Hq) by discriminate. exact Hs.
Qed.

Lemma mkdir_fresh q x w e n' :
  resolve (fs w) (q ++ [x]) = inl e ->
  is_dir (fs w) q = true ->
  store (fs w) (q ++ [x]) (Dir []) = Some n' ->
  os.mkdir (q ++ [x]) w = (set_fs w n', Returned tt).
Proof.
  intros H1 H2 H3. unfold os.mkdir. rewrite H1, dirname_snoc.
  apply is_dir_resolve in H2. destruct H2 as [es [-> | ->]]; now rewrite H3.
Qed.

(** ** The directory steps of [main] and [createModpackZip] *)

Lemma fresh_directory_unfold parent name w :
  fresh_directory parent name w =
  if is_dir (fs w) (parent ++ [name])
  then match shutil.rmtree parent name w with
       | (w1, Returned _) => os.makedirs (parent ++ [name]) w1
       | (w1, Raised e) => (w1, Raised e)
       | (w1, OutOfFuel) => (w1, OutOfFuel)
       end
  else os.makedirs (parent ++ [name]) w.
Proof.
  unfold fresh_directory, bind, os.isdir, ret.
  destruct (is_dir (fs w) (parent ++ [name])); reflexivity.
Qed.

(** X5: when the step of [main] that clears a directory returns, the
    directory exists and is empty, whatever it held before, and every
    path that is neither inside it nor above it resolves as before. *)
Theorem fresh_directory_is_empty (parent : path) (name : string) (w w' : world) :
  fresh_directory parent name w = (w', Returned tt) ->
  resolve (fs w') (parent ++ [name]) = inr (Dir []) /\
  (forall p, comparable (parent ++ [name]) p = false ->
             resolve (fs w') p = resolve (fs w) p).
Proof.
  rewrite fresh_directory_unfold. intros H.
  assert (Hmk : forall w1,
    (forall p, comparable (parent ++ [name]) p = false ->
               resolve (fs w1) p = resolve (fs w) p) ->
    os.makedirs (parent ++ [name]) w1 = (w', Returned tt) ->
    resolve (fs w') (parent ++ [name]) = inr (Dir []) /\
    (forall p, comparable (parent ++ [name]) p = false ->
               resolve (fs w') p = resolve (fs w) p)).
  { intros w1 Hw1 Hm. split; [exact (makedirs_returned _ _ _ Hm)|].
    intros p Hc. rewrite <- (Hw1 p Hc).
    destruct (makedirs_spec _ _ _ _ Hm) as [Hg _].
    apply (grows_off _ _ _ Hg). apply comparable_false in Hc. tauto. }
  destruct (is_dir (fs w) (parent ++ [name])).
  - destruct (shutil.rmtree parent name w) as [w1 [[]|e|]] eqn:Er;
      try discriminate.
    destruct (rmtree_spec _ _ _ _ _ Er) as [_ [_ Hr]].
    destruct (Hr eq_refl) as [_ [_ Hf]]. now apply (Hmk w1).
  - now apply (Hmk w).
Qed.

Lemma fresh_directory_is_empty_witness :
  resolve (fs (fst (fresh_directory [] "build" (fresh tree_stale_build))))
    ([] ++ ["build"]) = inr (Dir []).
Proof.
  apply (proj1 (fresh_directory_is_empty [] "build" (fresh tree_stale_build) _
                  ltac:(vm_compute; reflexivity))).
Defined.

(** X6: where [parent/name] is a regular file in an existing directory,
    the step that clears [parent/name] fails: nothing is removed,
    [os.makedirs] raises [FileExistsError], and the file system is left
    as it was. *)
Theorem fresh_directory_outcome
  (parent : path) (name : string) (w : world)
  (d : list Byte.byte) (m : stat_result) :
  is_dir (fs w) parent = true ->
  resolve (fs w) (parent ++ [name]) = inr (File d m) ->
  fresh_directory parent name w = (w, Raised FileExistsError).
Proof.
  intros Hp Ht. rewrite fresh_directory_unfold.
  unfold is_dir at 1. rewrite Ht.
  rewrite makedirs_child by exact Hp. unfold os.mkdir. now rewrite Ht.
Qed.

Lemma fresh_directory_outcome_witness :
  fresh_directory [] "build" (fresh tree_build_is_file)
  = (fresh tree_build_is_file, Raised FileExistsError).
Proof.
  apply (fresh_directory_outcome [] "build" (fresh tree_build_is_file)
           [Byte.x62] meta0 eq_refl).
  reflexivity.
Defined.

(** X7: with [build] an existing directory, no [build/curseforge] yet and
    [manifest.json] a regular file, the first two statements of
    [createModpackZip] return; [build/curseforge] then holds exactly the
    copy of [manifest.json], bytes and metadata, and every path that is
    neither inside [build/curseforge] nor above it resolves as before. *)
Theorem createModpackZip_begin_stages_manifest
  (w : world) (d : list Byte.byte) (m : stat_result) :
  is_dir (fs w) ["build"] = true ->
  path_exists (fs w) ["build"; "curseforge"] = false ->
  resolve (fs w) ["manifest.json"] = inr (File d m) ->
  exists w',
    createModpackZip_begin w = (w', Returned tt) /\
    resolve (fs w') ["build"; "curseforge"]
    = inr (Dir [("manifest.json", File d m)]) /\
    (forall p, comparable ["build"; "curseforge"] p = false ->
               resolve (fs w') p = resolve (fs w) p).
Proof.
  intros Hb Hc Hm. unfold createModpackZip_begin. cbv zeta.
  unfold path_exists in Hc.
  destruct (resolve (fs w) ["build"; "curseforge"]) as [e|a] eqn:Ec;
    [|discriminate].
  destruct (store_child (fs w) ["build"] "curseforge" (Dir []) Hb) as [n1 Hst1].
  assert (Hmk : os.makedirs ["build"; "curseforge"] w = (set_fs w n1, Returned tt)).
  { change ["build"; "curseforge"] with (["build"] ++ ["curseforge"]).
    rewrite makedirs_child by exact Hb.
    now apply mkdir_fresh with e. }
  pose proof (store_same _ _ _ _ Hst1) as Hq. cbn [app] in Hq.
  destruct (store_replace _ _ _ (Dir [("manifest.json", File d m)]) Hq)
    as [n2 [Hs2 Hr2]].
  assert (Hst2 : store n1 (["build"; "curseforge"] ++ ["manifest.json"]) (File d m)
                 = Some n2).
  { rewrite (store_below _ _ _ _ _ Hq) by discriminate. exact Hs2. }
  assert (Hm1 : resolve n1 ["manifest.json"] = inr (File d m)).
  { rewrite <- Hm. apply (store_apart _ _ _ _ _ Hst1).
    - intros [r Hr]. discriminate.
    - intros [r Hr]. discriminate. }
  exists (set_fs (set_fs w n1) n2). split; [|split].
  - unfold bind at 1. rewrite Hmk.
    apply (copy2_new ["manifest.json"] ["build"; "curseforge"] "manifest.json"
             (set_fs w n1) d m [] n2); cbn [fs set_fs]; auto.
    + discriminate.
    + rewrite resolve_app, Hq. reflexivity.
  - exact Hr2.
  - intros p Hp. cbn [fs set_fs]. apply comparable_false in Hp.
    destruct Hp as [Hp1 Hp2].
    rewrite (store_apart _ _ _ _ _ Hs2 Hp1 Hp2).
    apply (store_apart _ _ _ _ _ Hst1); assumption.
Qed.

Lemma createModpackZip_begin_stages_manifest_witness :
  exists w',
    createModpackZip_begin (fresh tree_cleared_build) = (w', Returned tt) /\
    resolve (fs w') ["build"; "curseforge"]
    = inr (Dir [("manifest.json", File [Byte.x7b; Byte.x7d] meta0)]) /\
    (forall p, comparable ["build"; "curseforge"] p = false ->
               resolve (fs w') p = resolve (fs (fresh tree_cleared_build)) p).
Proof.
  apply (createModpackZip_begin_stages_manifest (fresh tree_cleared_build)
           [Byte.x7b; Byte.x7d] meta0); reflexivity.
Defined.

(** X8: [createModpackZip] does not tolerate a staging directory left
    behind: where [build/curseforge] exists, in whatever form, its first
    statement raises [FileExistsError] and nothing is changed. *)
Theorem createModpackZip_begin_refuses_stale (w : world) :
  path_exists (fs w) ["build"; "curseforge"] = true ->
  createModpackZip_begin w = (w, Raised FileExistsError).
Proof.
  intros He. unfold createModpackZip_begin. cbv zeta. unfold bind.
  unfold path_exists in He.
  destruct (resolve (fs w) ["build"; "curseforge"]) as [e|a] eqn:Ec;
    [discriminate|].
  assert (Hb : is_dir (fs w) ["build"] = true).
  { apply (resolve_above_dir (fs w) ["build"] "curseforge" [] a). exact Ec. }
  change ["build"; "curseforge"] with (["build"] ++ ["curseforge"]).
  rewrite makedirs_child by exact Hb. unfold os.mkdir.
  cbn [app]. now rewrite Ec.
Qed.

Lemma createModpackZip_begin_refuses_stale_witness :
  createModpackZip_begin (fresh tree_stale_build)
  = (fresh tree_stale_build, Raised FileExistsError).
Proof.
  apply (createModpackZip_begin_refuses_stale (fresh tree_stale_build)).
  reflexivity.
Defined.

(** ** The loop over the override entries *)

Lemma copy_overrides_cons fuel targetDir e es g w :
  copy_overrides fuel targetDir (e :: es) g w =
  match copyNotGitignoreTree fuel [] targetDir e g w with
  | (w1, Returned _) => copy_overrides fuel targetDir es g w1
  | (w1, Raised err) => (w1, Raised err)
  | (w1, OutOfFuel) => (w1, OutOfFuel)
  end.
Proof. reflexivity. Qed.

Lemma copy_overrides_touches fuel targetDir es g w w' res :
  copy_overrides fuel targetDir es g w = (w', res) ->
  touches targetDir (fs w) (fs w').
Proof.
  unfold copy_overrides.
  apply (for_each_rel (fun w w' => touches targetDir (fs w) (fs w')) es).
  - intros w0. apply touches_refl.
  - intros w1 w2 w3. apply touches_trans.
  - intros e w1 w2 r _ H.
    apply touches_weaken with (T' := targetDir ++ e); [now exists e|].
    exact (copy_touches _ _ _ _ _ _ _ _ H).
Qed.

Lemma copy_overrides_apart fuel targetDir es g p :
  (forall e, In e es -> comparable (targetDir ++ e) p = false) ->
  forall w w' res,
    copy_overrides fuel targetDir es g w = (w', res) ->
    resolve (fs w') p = resolve (fs w) p.
Proof.
  intros Hp. unfold copy_overrides.
  apply (for_each_rel (fun w w' => resolve (fs w') p = resolve (fs w) p) es).
  - reflexivity.
  - intros w1 w2 w3 H1 H2. congruence.
  - intros e w1 w2 r Hin H.
    pose proof (copy_touches _ _ _ _ _ _ _ _ H) as Ht.
    specialize (Hp e Hin). apply comparable_false in Hp.
    apply (t_apart _ _ _ Ht); tauto.
Qed.

Lemma entries_apart_cons targetDir e es :
  entries_apart targetDir (e :: es) = true ->
  comparable e targetDir = false /\
  (forall e', In e' es -> comparable e e' = false) /\
  entries_apart targetDir es = true.
Proof.
  simpl. intros H. apply andb_prop in H. destruct H as [H H3].
  apply andb_prop in H. destruct H as [H1 H2].
  split; [now apply negb_true_iff|]. split; [|exact H3].
  intros e' Hin. rewrite forallb_forall in H2.
  apply negb_true_iff. now apply H2.
Qed.

Lemma entries_apart_In targetDir es :
  entries_apart targetDir es = true ->
  forall e, In e es -> comparable e targetDir = false.
Proof.
  induction es as [|e0 es IH]; intros H e Hin; [destruct Hin|].
  apply entries_apart_cons in H. destruct H as [H0 [_ Hr]].
  destruct Hin as [<- | Hin]; [exact H0 | now apply IH].
Qed.

Lemma entry_separate targetDir e :
  comparable e targetDir = false -> separate [] targetDir e.
Proof.
  intros H. unfold separate. simpl. rewrite <- (app_nil_r e) at 1.
  now apply comparable_app.
Qed.

(** One entry: a regular file that is not excluded arrives. *)
Lemma entry_copied fuel targetDir e g w w' u d m :
  comparable e targetDir = false ->
  copyNotGitignoreTree fuel [] targetDir e g w = (w', Returned tt) ->
  resolve (fs w) (e ++ u) = inr (File d m) ->
  g (e ++ u) = false ->
  is_dir (fs w) (targetDir ++ e ++ u) = false ->
  resolve (fs w') (targetDir ++ e ++ u) = inr (File d m).
Proof.
  intros Hc Hrun Hsrc Hg Hd. pose proof (entry_separate _ _ Hc) as Hsep.
  rewrite copy_is_walk in Hrun by exact Hsep.
  assert (Hl : forall r, In (Some r) (walk [] fuel (fs w) e) -> leaf [] (fs w) e r)
    by (intros r; apply walk_leaf).
  apply (copied_at_mirror [] targetDir g e (fs w) Hsep
           (walk [] fuel (fs w) e) (e ++ u) d m w w'); auto.
  - destruct (walk_complete [] fuel (fs w) e u d m Hsrc) as [Hin | Hin];
      [exact Hin|].
    exfalso. revert Hin.
    now apply (run_returned_not_stopped [] targetDir g e (fs w) Hsep _ w w').
  - reflexivity.
Qed.

(** One entry: the mirrored path of an excluded file is left alone. *)
Lemma entry_excluded fuel targetDir e g w w' res u d m :
  comparable e targetDir = false ->
  copyNotGitignoreTree fuel [] targetDir e g w = (w', res) ->
  resolve (fs w) (e ++ u) = inr (File d m) ->
  g (e ++ u) = true ->
  resolve (fs w') (targetDir ++ e ++ u) = resolve (fs w) (targetDir ++ e ++ u).
Proof.
  intros _ Hrun Hsrc Hg.
  exact (excluded_mirror_kept [] targetDir g fuel e u w w' res d m Hrun Hsrc Hg).
Qed.

Lemma entry_terminates fuel targetDir e g w :
  comparable e targetDir = false ->
  source_height (fs w) e < fuel ->
  snd (copyNotGitignoreTree fuel [] targetDir e g w) <> OutOfFuel.
Proof.
  intros Hc Hh. rewrite copy_is_walk by now apply entry_separate.
  destruct (run_items [] targetDir g (walk [] fuel (fs w) e) w) as [w' res] eqn:E.
  simpl. apply run_items_has_fuel in E; [exact E|].
  now apply walk_fuel.
Qed.

(** What an entry does to the source of another one, and to a mirrored
    path of another one. *)
Lemma entry_keeps_source fuel targetDir e0 g w w1 r e u :
  comparable e targetDir = false ->
  copyNotGitignoreTree fuel [] targetDir e0 g w = (w1, r) ->
  resolve (fs w1) (e ++ u) = resolve (fs w) (e ++ u).
Proof.
  intros Hc H. pose proof (copy_touches _ _ _ _ _ _ _ _ H) as Ht.
  pose proof (comparable_app e targetDir u e0 Hc) as Hc'.
  apply comparable_false in Hc'. apply (t_apart _ _ _ Ht); tauto.
Qed.

Lemma entry_keeps_mirror fuel targetDir e0 g w w1 r e u :
  comparable e0 e = false ->
  copyNotGitignoreTree fuel [] targetDir e0 g w = (w1, r) ->
  resolve (fs w1) (targetDir ++ e ++ u) = resolve (fs w) (targetDir ++ e ++ u).
Proof.
  intros Hc H. pose proof (copy_touches _ _ _ _ _ _ _ _ H) as Ht.
  pose proof (comparable_app e0 e [] u Hc) as Hc'.
  rewrite app_nil_r, <- (comparable_under targetDir) in Hc'.
  apply comparable_false in Hc'. apply (t_apart _ _ _ Ht); tauto.
Qed.

Lemma rest_keeps_mirror fuel targetDir es g e u w w' res :
  (forall e', In e' es -> comparable e e' = false) ->
  copy_overrides fuel targetDir es g w = (w', res) ->
  resolve (fs w') (targetDir ++ e ++ u) = resolve (fs w) (targetDir ++ e ++ u).
Proof.
  intros Hall. apply copy_overrides_apart. intros e' Hin.
  rewrite comparable_under, comparable_comm.
  rewrite <- (app_nil_r e'). apply comparable_app. now apply Hall.
Qed.





(** X11: with the entries apart from the staging directory and from one
    another, the loop never writes at the mirrored path of a regular file
    that the matcher excludes: however the loop ends, that path resolves
    as before, so a file that was not staged before is not staged
    after. *)
Theorem overrides_excluded_not_copied
  (fuel : nat) (targetDir : path) (gitignore : path -> bool)
  (e u : path) (w' : world) (res : result unit) :
  forall (entries : list path) (w : world)
         (data : list Byte.byte) (meta : stat_result),
    entries_apart targetDir entries = true ->
    copy_overrides fuel targetDir entries gitignore w = (w', res) ->
    In e entries ->
    resolve (fs w) (e ++ u) = inr (File data meta) ->
    gitignore (e ++ u) = true ->
    resolve (fs w') (targetDir ++ e ++ u) = resolve (fs w) (targetDir ++ e ++ u).
Proof.
  induction entries as [|e0 es IH]; intros w data meta Hap Hrun Hin Hsrc Hg;
    [destruct Hin|].
  rewrite copy_overrides_cons in Hrun.
  destruct (copyNotGitignoreTree fuel [] targetDir e0 gitignore w)
    as [w1 r0] eqn:E0.
  apply entries_apart_cons in Hap. destruct Hap as [Hc0 [Hothers Hrest]].
  destruct Hin as [<- | Hin].
  - pose proof (entry_excluded _ _ _ _ _ _ _ _ _ _ Hc0 E0 Hsrc Hg) as H1.
    destruct r0 as [[]|err|]; try (injection Hrun as <- <-; exact H1).
    rewrite <- H1. exact (rest_keeps_mirror _ _ _ _ _ _ _ _ _ Hothers Hrun).
  - pose proof (entry_keeps_mirror _ _ _ _ _ _ _ _ u (Hothers e Hin) E0) as H1.
    destruct r0 as [[]|err|]; try (injection Hrun as <- <-; exact H1).
    rewrite <- H1. apply (IH w1 data meta); auto.
    rewrite <- Hsrc.
    apply (entry_keeps_source _ _ _ _ _ _ _ _ _
             (entries_apart_In _ _ Hrest e Hin) E0).
Qed.

Lemma overrides_excluded_not_copied_witness :
  resolve
    (fs (fst (copy_overrides 3 ["build"] [["a"]; ["config"]] ignore_log
                (fresh tree_two_entries))))
    (["build"] ++ ["a"] ++ ["ignore.log"])
  = inl FileNotFoundError.
Proof.
  rewrite (overrides_excluded_not_copied 3 ["build"] ignore_log ["a"] ["ignore.log"]
             _ (Returned tt) [["a"]; ["config"]] (fresh tree_two_entries)
             [Byte.x6c] meta1).
  - reflexivity.
  - reflexivity.
  - vm_compute. reflexivity.
  - left. reflexivity.
  - reflexivity.
  - reflexivity.
Defined.

(** X12: the loop comes to an end: with no entry the staging directory,
    inside it or above it, and more fuel than the tallest entry is high,
    no call of the loop runs out of fuel. *)
Theorem overrides_terminate
  (fuel : nat) (targetDir : path) (gitignore : path -> bool) :
  forall (entries : list path) (w : world),
    (forall e, In e entries -> comparable e targetDir = false) ->
    (forall e, In e entries -> source_height (fs w) e < fuel) ->
    snd (copy_overrides fuel targetDir entries gitignore w) <> OutOfFuel.
Proof.
  induction entries as [|e0 es IH]; intros w Hc Hh; [discriminate|].
  rewrite copy_overrides_cons.
  pose proof (entry_terminates fuel targetDir e0 gitignore w
                (Hc e0 (or_introl eq_refl)) (Hh e0 (or_introl eq_refl))) as H0.
  destruct (copyNotGitignoreTree fuel [] targetDir e0 gitignore w)
    as [w1 [[]|err|]] eqn:E0; simpl in H0; try discriminate; try congruence.
  apply IH.
  - intros e Hin. apply Hc. now right.
  - intros e Hin. unfold source_height.
    rewrite <- (app_nil_r e).
    rewrite (entry_keeps_source _ _ _ _ _ _ _ e [] (Hc e (or_intror Hin)) E0).
    rewrite app_nil_r. apply Hh. now right.
Qed.

Lemma overrides_terminate_witness :
  snd (copy_overrides 3 ["build"] [["a"]; ["config"]] ignore_log
         (fresh tree_two_entries)) <> OutOfFuel.
Proof.
  apply (overrides_terminate 3 ["build"] ignore_log [["a"]; ["config"]]
           (fresh tree_two_entries)).
  - intros e [<- | [<- | []]]; reflexivity.
  - intros e [<- | [<- | []]]; vm_compute; lia.
Defined.
